(** * QuadTree.hpp: a shallow embedding and its properties

    The class template [QuadTree<T, Bound>] of [QuadTree.hpp] is embedded as
    pure functions over an inductive tree.

    Modelling decisions, each one read off the source:

    - [Bound], and the values returned by [T::getPosition()] and
      [T::getSize()], are structs with two numeric fields [x] and [y].  The
      template is instantiated at an integer coordinate type: coordinates
      are [Z] and the [/ 2] of [split] is the truncating division of C++,
      [Z.quot].  No coordinate overflow is modelled.
    - [uint32_t] fields ([level], [max_level], [max_objects]) are [N]; the
      constructor converts its arguments modulo [2^32] and [level + 1] in
      [split] wraps around.
    - [const T*] is an address ([ptr]); the objects themselves live in
      caller-owned storage [mem], which the tree only reads.
    - [children_nodes] is an array of four owning pointers.  The constructor
      and [clear] set all four to null and [split] sets all four to fresh
      nodes; nothing else writes them.  Hence a node has either no child
      ([Leaf]) or four ([Internal]), which is what the test
      [children_nodes[0] != nullptr] of the source relies on.
    - The private member [getIndex] is called by none of the operations; it
      is embedded next to them and related to [is_inside] and [split]. *)

From Stdlib Require Import ZArith NArith List Bool Lia.
Import ListNotations.

Open Scope Z_scope.

(** ** Data *)

Module Vec2.
Record t : Set := mk { x : Z; y : Z }.
End Vec2.

Definition Bound : Set := Vec2.t.

(** The requirements on [T] stated in the header comment of the source. *)
Class Shape (T : Type) : Type := {
  getPosition : T -> Vec2.t;
  getSize : T -> Vec2.t
}.

(** Addresses of objects: the values of [const T*]. *)
Definition ptr : Set := N.

(** Conversion to [uint32_t]. *)
Definition uint32 (n : N) : N := (n mod 2 ^ 32)%N.

(** The data members of one node, [children_nodes] apart. *)
Record Node : Set := mkNode {
  node_objects : list ptr;
  top_left : Bound;
  bottom_right : Bound;
  max_objects : N;
  level : N;
  max_level : N
}.

(** A node with its subtrees: [Leaf] when [children_nodes] holds null
    pointers, [Internal] when it holds the four children. *)
Inductive QuadTree : Set :=
| Leaf (n : Node)
| Internal (n : Node) (c0 c1 c2 c3 : QuadTree).

(** The data members of the root of a tree. *)
Definition node (t : QuadTree) : Node :=
  match t with
  | Leaf n => n
  | Internal n _ _ _ _ => n
  end.

(** [children_nodes[0] == nullptr] *)
Definition is_leaf (t : QuadTree) : bool :=
  match t with
  | Leaf _ => true
  | Internal _ _ _ _ _ => false
  end.

(** The children that are present, in the order of the array. *)
Definition children_nodes (t : QuadTree) : list QuadTree :=
  match t with
  | Leaf _ => []
  | Internal _ c0 c1 c2 c3 => [c0; c1; c2; c3]
  end.

(** The node with [node_objects] replaced. *)
Definition with_objects (n : Node) (objs : list ptr) : Node :=
  mkNode objs (top_left n) (bottom_right n) (max_objects n) (level n) (max_level n).

(** [children_nodes[j]->node_objects.push_back(tmpObj)] *)
Definition push_object (t : QuadTree) (o : ptr) : QuadTree :=
  match t with
  | Leaf n => Leaf (with_objects n (node_objects n ++ [o]))
  | Internal n c0 c1 c2 c3 =>
      Internal (with_objects n (node_objects n ++ [o])) c0 c1 c2 c3
  end.

(** ** Operations *)

(** The constructor: an empty node without children. *)
Definition QuadTree_new (pLevel : N) (tl br : Bound) (max_objs max_lvl : N)
  : QuadTree :=
  Leaf (mkNode [] tl br (uint32 max_objs) (uint32 pLevel) (uint32 max_lvl)).

(** [clear]: the children are cleared and then released, the node is left
    without objects and without children. *)
Fixpoint clear (t : QuadTree) : QuadTree :=
  match t with
  | Leaf n => Leaf (with_objects n [])
  | Internal n c0 c1 c2 c3 =>
      let _ := (clear c0, clear c1, clear c2, clear c3) in
      Leaf (with_objects n [])
  end.

(** [split]: the four fresh children, in the order of [children_nodes]. *)
Definition split (n : Node) : QuadTree * QuadTree * QuadTree * QuadTree :=
  let tl := top_left n in
  let br := bottom_right n in
  let hf_width := (Vec2.x br - Vec2.x tl) ÷ 2 in
  let hf_height := (Vec2.y br - Vec2.y tl) ÷ 2 in
  let lvl := uint32 (level n + 1) in
  (QuadTree_new lvl
     (Vec2.mk (Vec2.x tl + hf_width) (Vec2.y tl))
     (Vec2.mk (Vec2.x br) (Vec2.y tl + hf_height))
     (max_objects n) (max_level n),
   QuadTree_new lvl
     (Vec2.mk (Vec2.x tl) (Vec2.y tl))
     (Vec2.mk (Vec2.x tl + hf_width) (Vec2.y tl + hf_height))
     (max_objects n) (max_level n),
   QuadTree_new lvl
     (Vec2.mk (Vec2.x tl) (Vec2.y tl + hf_height))
     (Vec2.mk (Vec2.x tl + hf_width) (Vec2.y br))
     (max_objects n) (max_level n),
   QuadTree_new lvl
     (Vec2.mk (Vec2.x tl + hf_width) (Vec2.y tl + hf_height))
     (Vec2.mk (Vec2.x br) (Vec2.y br))
     (max_objects n) (max_level n)).

(** The four children of a split as a list, indexed as [children_nodes]. *)
Definition quadrants (n : Node) : list QuadTree :=
  let '(c0, c1, c2, c3) := split n in [c0; c1; c2; c3].

(** A node without its objects: bounds, level and limits. *)
Definition frame (n : Node) : Node := with_objects n [].

(** The leaves of a tree, in the order [retrieve] visits them. *)
Fixpoint leaves (t : QuadTree) : list QuadTree :=
  match t with
  | Leaf n => [Leaf n]
  | Internal _ c0 c1 c2 c3 => leaves c0 ++ leaves c1 ++ leaves c2 ++ leaves c3
  end.

(** How many times a reference occurs in a vector of references. *)
Definition occurrences (o : ptr) (v : list ptr) : nat :=
  count_occ N.eq_dec v o.

Section Tree.

Context {T : Type} {shape : Shape T}.

(** The caller's storage: the object each address refers to. *)
Variable mem : ptr -> T.

(** [is_inside]: the bounds of the node against the rectangle of the
    object. *)
Definition is_inside (t : QuadTree) (object : ptr) : bool :=
  (Vec2.x (getPosition (mem object)) + Vec2.x (getSize (mem object))
     >=? Vec2.x (top_left (node t)))
  && (Vec2.x (getPosition (mem object)) <=? Vec2.x (bottom_right (node t)))
  && (Vec2.y (getPosition (mem object)) + Vec2.y (getSize (mem object))
        >=? Vec2.y (top_left (node t)))
  && (Vec2.y (getPosition (mem object)) <=? Vec2.y (bottom_right (node t))).

(** One round of the inner [for] loop of the redistribution: [tmpObj] is
    pushed onto the list of the child when the child's bounds overlap it. *)
Definition offer (c : QuadTree) (tmpObj : ptr) : QuadTree :=
  if is_inside c tmpObj then push_object c tmpObj else c.

(** The [while (node_objects.size())] loop.  [pending] is the vector read
    from its back: its head is the element [pop_back] removes next. *)
Fixpoint redistribute (pending : list ptr)
    (cs : QuadTree * QuadTree * QuadTree * QuadTree)
  : QuadTree * QuadTree * QuadTree * QuadTree :=
  match pending with
  | [] => cs
  | tmpObj :: rest =>
      let '(c0, c1, c2, c3) := cs in
      redistribute rest
        (offer c0 tmpObj, offer c1 tmpObj, offer c2 tmpObj, offer c3 tmpObj)
  end.

(** The test that guards the split. *)
Definition should_split (n : Node) : bool :=
  (max_objects n <? N.of_nat (length (node_objects n)))%N
  && (level n <? max_level n)%N.

(** [insert]: an internal node hands the object to the children whose
    bounds overlap it; a leaf appends the reference and, when the test of
    [should_split] holds, splits and moves its whole list to the children.
    On this path [children_nodes[0]] is null, so [split] is always called. *)
Fixpoint insert (t : QuadTree) (object : ptr) : QuadTree :=
  match t with
  | Internal n c0 c1 c2 c3 =>
      Internal n
        (if is_inside c0 object then insert c0 object else c0)
        (if is_inside c1 object then insert c1 object else c1)
        (if is_inside c2 object then insert c2 object else c2)
        (if is_inside c3 object then insert c3 object else c3)
  | Leaf n =>
      let n' := with_objects n (node_objects n ++ [object]) in
      if should_split n' then
        let '(c0, c1, c2, c3) :=
          redistribute (rev (node_objects n')) (split n') in
        Internal (with_objects n' []) c0 c1 c2 c3
      else Leaf n'
  end.

(** The range-[for] of the leaf case of [retrieve]. *)
Definition push_all (obj_vec : list ptr) (objs : list ptr) : list ptr :=
  fold_left (fun v o => v ++ [o]) objs obj_vec.

(** [retrieve]: the vector handed in, extended and handed back. *)
Fixpoint retrieve (t : QuadTree) (obj_vec : list ptr) (object : ptr)
  : list ptr :=
  match t with
  | Leaf n => push_all obj_vec (node_objects n)
  | Internal _ c0 c1 c2 c3 =>
      let v0 := if is_inside c0 object then retrieve c0 obj_vec object
                else obj_vec in
      let v1 := if is_inside c1 object then retrieve c1 v0 object else v0 in
      let v2 := if is_inside c2 object then retrieve c2 v1 object else v1 in
      if is_inside c3 object then retrieve c3 v2 object else v2
  end.

(** One round of the loop over the children in [retrieve]. *)
Definition visit (q : ptr) (acc : list ptr) (c : QuadTree) : list ptr :=
  if is_inside c q then retrieve c acc q else acc.

(** How many references to [o] the leaves overlapping [q] hold. *)
Definition stored_in_reach (o q : ptr) (t : QuadTree) : nat :=
  list_sum (map (fun l => occurrences o (node_objects (node l)))
              (filter (fun l => is_inside l q) (leaves t))).

(** The calls a client can make, and the tree they leave behind.
    [retrieve] only reads the tree. *)
Inductive Op : Set :=
| OpInsert (object : ptr)
| OpRetrieve (obj_vec : list ptr) (object : ptr)
| OpClear.

Definition step (t : QuadTree) (op : Op) : QuadTree :=
  match op with
  | OpInsert object => insert t object
  | OpRetrieve _ _ => t
  | OpClear => clear t
  end.

(** The tree after a sequence of calls. *)
Definition run (t : QuadTree) (ops : list Op) : QuadTree :=
  fold_left step ops t.

(** The tree after inserting the objects one after the other. *)
Definition insert_all (t : QuadTree) (objs : list ptr) : QuadTree :=
  fold_left insert objs t.

End Tree.

Section Classifier.

Context {T : Type} {shape : Shape T}.
Variable mem : ptr -> T.

(** [getIndex]: the quarter the object lies in, as an index into
    [children_nodes], or -1 when it lies in none. *)
Definition getIndex (t : QuadTree) (object : ptr) : Z :=
  let v_midPnt :=
    Vec2.x (top_left (node t))
    + (Vec2.x (bottom_right (node t)) - Vec2.x (top_left (node t))) ÷ 2 in
  let h_midPnt :=
    Vec2.y (top_left (node t))
    + (Vec2.y (bottom_right (node t)) - Vec2.y (top_left (node t))) ÷ 2 in
  let topQuadrant :=
    (Vec2.y (getPosition (mem object)) <? h_midPnt)
    && (Vec2.y (getPosition (mem object)) + Vec2.y (getSize (mem object))
          <? h_midPnt) in
  let bottomQuadrant := Vec2.y (getPosition (mem object)) >? h_midPnt in
  if (Vec2.x (getPosition (mem object)) <? v_midPnt)
     && (Vec2.x (getPosition (mem object)) + Vec2.x (getSize (mem object))
           <? v_midPnt)
  then
    if topQuadrant then 1 else if bottomQuadrant then 2 else -1
  else if Vec2.x (getPosition (mem object)) >? v_midPnt then
    if topQuadrant then 0 else if bottomQuadrant then 3 else -1
  else -1.

(** Two objects whose rectangles meet, edges included: the test of
    [is_inside] with the rectangle of a second object for the bounds. *)
Definition overlaps (a b : ptr) : bool :=
  (Vec2.x (getPosition (mem a)) + Vec2.x (getSize (mem a))
     >=? Vec2.x (getPosition (mem b)))
  && (Vec2.x (getPosition (mem a))
        <=? Vec2.x (getPosition (mem b)) + Vec2.x (getSize (mem b)))
  && (Vec2.y (getPosition (mem a)) + Vec2.y (getSize (mem a))
        >=? Vec2.y (getPosition (mem b)))
  && (Vec2.y (getPosition (mem a))
        <=? Vec2.y (getPosition (mem b)) + Vec2.y (getSize (mem b))).

(** An object of non-negative width and height. *)
Definition well_sized (o : ptr) : Prop :=
  0 <= Vec2.x (getSize (mem o)) /\ 0 <= Vec2.y (getSize (mem o)).

End Classifier.

(** ** Vocabulary of the properties *)

(** Every node of a tree, as the subtree it is the root of; the tree itself
    comes first. *)
Fixpoint subtrees (t : QuadTree) : list QuadTree :=
  t :: match t with
       | Leaf _ => []
       | Internal _ c0 c1 c2 c3 =>
           subtrees c0 ++ subtrees c1 ++ subtrees c2 ++ subtrees c3
       end.

(** The references inserted by a sequence of calls since its last [clear],
    in the order of insertion. *)
Definition record_op (inserted : list ptr) (op : Op) : list ptr :=
  match op with
  | OpInsert object => inserted ++ [object]
  | OpRetrieve _ _ => inserted
  | OpClear => []
  end.

Definition live (ops : list Op) : list ptr := fold_left record_op ops [].

(** The objects held by the leaves whose bounds overlap the query, leaf by
    leaf in the order of the tree. *)
Definition candidates {T : Type} {shape : Shape T} (mem : ptr -> T)
    (t : QuadTree) (q : ptr) : list ptr :=
  flat_map (fun l => node_objects (node l))
    (filter (fun l => is_inside mem l q) (leaves t)).

(** Every node is at most [maxDepth] deep and every child is one level below
    its parent. *)
Fixpoint depth_ok (maxDepth : N) (t : QuadTree) : bool :=
  (level (node t) <=? maxDepth)%N
  && match t with
     | Leaf _ => true
     | Internal n c0 c1 c2 c3 =>
         forallb (fun c => (level (node c) =? level n + 1)%N) [c0; c1; c2; c3]
         && depth_ok maxDepth c0 && depth_ok maxDepth c1
         && depth_ok maxDepth c2 && depth_ok maxDepth c3
     end.

(** No leaf above the maximal level holds more than [max_objects] objects. *)
Definition leaf_within_capacity (l : QuadTree) : bool :=
  negb (level (node l) <? max_level (node l))%N
  || (N.of_nat (length (node_objects (node l))) <=? max_objects (node l))%N.

Definition within_capacity (t : QuadTree) : bool :=
  forallb leaf_within_capacity (leaves t).

(** The shape every tree built by the operations has: an internal node holds
    no object, lies above the maximal level, and its children are framed as
    [split] frames them. *)
Fixpoint split_shaped (t : QuadTree) : Prop :=
  match t with
  | Leaf _ => True
  | Internal n c0 c1 c2 c3 =>
      node_objects n = []
      /\ (level n < max_level n)%N
      /\ (Leaf (frame (node c0)), Leaf (frame (node c1)),
          Leaf (frame (node c2)), Leaf (frame (node c3))) = split n
      /\ split_shaped c0 /\ split_shaped c1
      /\ split_shaped c2 /\ split_shaped c3
  end.

(** Bounds whose top-left corner is not beyond the bottom-right one. *)
Definition ordered (n : Node) : Prop :=
  Vec2.x (top_left n) <= Vec2.x (bottom_right n)
  /\ Vec2.y (top_left n) <= Vec2.y (bottom_right n).

(** The closed rectangle of a node, as a set of points. *)
Definition contains (t : QuadTree) (p : Vec2.t) : Prop :=
  Vec2.x (top_left (node t)) <= Vec2.x p <= Vec2.x (bottom_right (node t))
  /\ Vec2.y (top_left (node t)) <= Vec2.y p <= Vec2.y (bottom_right (node t)).

Definition width (t : QuadTree) : Z :=
  Vec2.x (bottom_right (node t)) - Vec2.x (top_left (node t)).

Definition height (t : QuadTree) : Z :=
  Vec2.y (bottom_right (node t)) - Vec2.y (top_left (node t)).

(** The four children of a split have the same width and the same height. *)
Definition equal_quadrants (n : Node) : Prop :=
  let '(c0, c1, c2, c3) := split n in
  width c0 = width c1 /\ width c1 = width c2 /\ width c2 = width c3
  /\ height c0 = height c1 /\ height c1 = height c2 /\ height c2 = height c3.

(** ** A concrete object type

    Rectangles with a position and a size, stored in a vector that plays the
    caller's storage: address [i] refers to its [i]-th element. *)
Record Rect : Set := mkRect { position : Vec2.t; size : Vec2.t }.

#[export] Instance Rect_Shape : Shape Rect :=
  {| getPosition := position; getSize := size |}.

Definition rect (px py w h : Z) : Rect :=
  mkRect (Vec2.mk px py) (Vec2.mk w h).

Definition storage (objs : list Rect) : ptr -> Rect :=
  fun p => nth (N.to_nat p) objs (rect 0 0 0 0).


(** ** Scenarios *)

(** The end-to-end scenario: a tree over (0,0)-(100,100) splitting above one
    object per node, at most four levels deep. *)
Definition demo_tree : QuadTree :=
  QuadTree_new 0 (Vec2.mk 0 0) (Vec2.mk 100 100) 1 4.

(** Addresses 0..3: object A, object B, the small query, the query that
    spans the whole region. *)
Definition demo_mem : ptr -> Rect :=
  storage [rect 10 10 5 5; rect 60 60 5 5; rect 10 10 5 5; rect 0 0 100 100].

Definition obj_A : ptr := 0%N.
Definition obj_B : ptr := 1%N.
Definition query_small : ptr := 2%N.
Definition query_all : ptr := 3%N.

(** Two objects next to each other in the top-left quadrant of the region of
    the scenario. *)
Definition crowd_mem : ptr -> Rect :=
  storage [rect 10 10 5 5; rect 12 12 5 5].

(** The scenario with a third, wide object that straddles the line between
    the two top quadrants (address 2) and a query lower down that overlaps
    both top quadrants (address 3). *)
Definition straddle_mem : ptr -> Rect :=
  storage [rect 10 10 5 5; rect 60 60 5 5; rect 20 5 35 5; rect 45 40 10 5].

(** A tree with room for two objects per node, three objects in its lower
    half (addresses 0..2), a straddling object (address 3) and the query
    (address 4). *)
Definition roomy_tree : QuadTree :=
  QuadTree_new 0 (Vec2.mk 0 0) (Vec2.mk 100 100) 2 4.

Definition roomy_mem : ptr -> Rect :=
  storage [rect 60 60 5 5; rect 10 60 5 5; rect 70 70 5 5; rect 45 10 10 5;
           rect 45 40 10 5].

(** An object far away from the region of the scenario (address 4). *)
Definition stray_mem : ptr -> Rect :=
  storage [rect 10 10 5 5; rect 60 60 5 5; rect 10 10 5 5; rect 0 0 100 100;
           rect 500 500 5 5].

Definition stray : ptr := 4%N.

(** A region given the wrong way round, its bottom-right corner left of its
    top-left one; three objects on its left edge (addresses 0..2) and a query
    next to them (address 3). *)
Definition backwards_tree : QuadTree :=
  QuadTree_new 0 (Vec2.mk 0 0) (Vec2.mk (-3) 100) 1 4.

Definition backwards_mem : ptr -> Rect :=
  storage [rect (-1) 10 1 5; rect (-1) 10 1 5; rect (-1) 10 1 5;
           rect 0 10 0 5].

(** ** Basic facts *)

Arguments split : simpl never.
Arguments quadrants : simpl never.
Arguments uint32 : simpl never.
Arguments QuadTree_new : simpl never.

Lemma uint32_lt (n : N) : (uint32 n < 2 ^ 32)%N.
Proof. unfold uint32. apply N.mod_lt. discriminate. Qed.

Lemma uint32_small (n : N) : (n < 2 ^ 32)%N -> uint32 n = n.
Proof. intros H. unfold uint32. now apply N.mod_small. Qed.

Lemma uint32_idem (n : N) : uint32 (uint32 n) = uint32 n.
Proof. apply uint32_small, uint32_lt. Qed.

Lemma frame_with_objects (n : Node) (objs : list ptr) :
  frame (with_objects n objs) = frame n.
Proof. reflexivity. Qed.

Lemma frame_idem (n : Node) : frame (frame n) = frame n.
Proof. reflexivity. Qed.

Lemma frame_push_object (t : QuadTree) (o : ptr) :
  frame (node (push_object t o)) = frame (node t).
Proof. destruct t; reflexivity. Qed.

Lemma is_leaf_push_object (t : QuadTree) (o : ptr) :
  is_leaf (push_object t o) = is_leaf t.
Proof. destruct t; reflexivity. Qed.

Lemma clear_spec (t : QuadTree) : clear t = Leaf (frame (node t)).
Proof. destruct t; reflexivity. Qed.

Lemma split_frame (n : Node) : split (frame n) = split n.
Proof. reflexivity. Qed.

Lemma split_with_objects (n : Node) (objs : list ptr) :
  split (with_objects n objs) = split n.
Proof. reflexivity. Qed.

Section Facts.

Context {T : Type} {shape : Shape T}.
Variable mem : ptr -> T.

Lemma push_all_app (obj_vec objs : list ptr) :
  push_all obj_vec objs = obj_vec ++ objs.
Proof.
  unfold push_all. revert obj_vec.
  induction objs as [|o objs IH]; intros v; simpl.
  - now rewrite app_nil_r.
  - rewrite IH, <- app_assoc. reflexivity.
Qed.

(** [is_inside] reads the bounds of the node only. *)
Lemma is_inside_frame (t u : QuadTree) (o : ptr) :
  frame (node t) = frame (node u) -> is_inside mem t o = is_inside mem u o.
Proof.
  intros H. unfold is_inside.
  assert (Htl : top_left (node t) = top_left (node u))
    by exact (f_equal top_left H).
  assert (Hbr : bottom_right (node t) = bottom_right (node u))
    by exact (f_equal bottom_right H).
  now rewrite Htl, Hbr.
Qed.

Lemma frame_offer (c : QuadTree) (o : ptr) :
  frame (node (offer mem c o)) = frame (node c).
Proof. unfold offer. destruct is_inside; [apply frame_push_object | reflexivity]. Qed.

Lemma is_leaf_offer (c : QuadTree) (o : ptr) :
  is_leaf (offer mem c o) = is_leaf c.
Proof. unfold offer. destruct is_inside; [apply is_leaf_push_object | reflexivity]. Qed.

(** [insert] never touches the bounds, the level or the limits of the node
    it is called on. *)
Lemma frame_insert (t : QuadTree) (o : ptr) :
  frame (node (insert mem t o)) = frame (node t).
Proof.
  destruct t as [n | n c0 c1 c2 c3]; simpl; [| reflexivity].
  destruct should_split; [| reflexivity].
  destruct redistribute as [[[k0 k1] k2] k3]. reflexivity.
Qed.

Lemma is_inside_insert (t : QuadTree) (o q : ptr) :
  is_inside mem (insert mem t o) q = is_inside mem t q.
Proof. apply is_inside_frame, frame_insert. Qed.

Lemma frame_step (t : QuadTree) (op : Op) :
  frame (node (step mem t op)) = frame (node t).
Proof.
  destruct op; simpl; [apply frame_insert | reflexivity |].
  now rewrite clear_spec.
Qed.

Lemma frame_run (ops : list Op) (t : QuadTree) :
  frame (node (run mem t ops)) = frame (node t).
Proof.
  unfold run. revert t.
  induction ops as [|op ops IH]; intros t; simpl; [reflexivity |].
  now rewrite IH, frame_step.
Qed.

(** *** The redistribution loop, child by child *)

Lemma redistribute_fold (pending : list ptr) (c0 c1 c2 c3 : QuadTree) :
  redistribute mem pending (c0, c1, c2, c3)
  = (fold_left (offer mem) pending c0, fold_left (offer mem) pending c1,
     fold_left (offer mem) pending c2, fold_left (offer mem) pending c3).
Proof.
  revert c0 c1 c2 c3.
  induction pending as [|o rest IH]; intros; simpl; [reflexivity | apply IH].
Qed.

Lemma frame_fold_offer (pending : list ptr) (c : QuadTree) :
  frame (node (fold_left (offer mem) pending c)) = frame (node c).
Proof.
  revert c. induction pending as [|o rest IH]; intros c; simpl; [reflexivity |].
  now rewrite IH, frame_offer.
Qed.

Lemma is_leaf_fold_offer (pending : list ptr) (c : QuadTree) :
  is_leaf (fold_left (offer mem) pending c) = is_leaf c.
Proof.
  revert c. induction pending as [|o rest IH]; intros c; simpl; [reflexivity |].
  now rewrite IH, is_leaf_offer.
Qed.

(** A child ends up with exactly the pending objects its bounds overlap, in
    the order they were popped. *)
Lemma objects_fold_offer (pending : list ptr) (c : QuadTree) :
  node_objects (node (fold_left (offer mem) pending c))
  = node_objects (node c) ++ filter (is_inside mem c) pending.
Proof.
  revert c. induction pending as [|o rest IH]; intros c; simpl.
  - now rewrite app_nil_r.
  - rewrite IH.
    assert (Hin : forall q, is_inside mem (offer mem c o) q = is_inside mem c q)
      by (intros q; apply is_inside_frame, frame_offer).
    rewrite (filter_ext _ _ Hin).
    unfold offer. destruct (is_inside mem c o); [| reflexivity].
    destruct c; simpl; now rewrite <- app_assoc.
Qed.

Lemma split_children_fresh (n : Node) (c : QuadTree) :
  In c (quadrants n) -> c = Leaf (frame (node c)).
Proof.
  unfold quadrants, split, QuadTree_new.
  intros [<- | [<- | [<- | [<- | []]]]]; reflexivity.
Qed.

Lemma leaf_split_shaped (t : QuadTree) : is_leaf t = true -> split_shaped t.
Proof. destruct t; [intros _; exact I | discriminate]. Qed.

(** *** What [insert] does at a leaf and at an internal node *)

Lemma insert_leaf_fits (n : Node) (o : ptr) :
  should_split (with_objects n (node_objects n ++ [o])) = false ->
  insert mem (Leaf n) o = Leaf (with_objects n (node_objects n ++ [o])).
Proof. intros H. simpl. now rewrite H. Qed.

Lemma insert_leaf_overflow (n : Node) (o : ptr) :
  should_split (with_objects n (node_objects n ++ [o])) = true ->
  exists k0 k1 k2 k3,
    insert mem (Leaf n) o = Internal (frame n) k0 k1 k2 k3
    /\ [k0; k1; k2; k3]
       = map (fold_left (offer mem) (rev (node_objects n ++ [o])))
           (quadrants n).
Proof.
  intros H. cbn [insert]. rewrite H, split_with_objects.
  change (quadrants n) with (let '(c0, c1, c2, c3) := split n in [c0; c1; c2; c3]).
  destruct (split n) as [[[q0 q1] q2] q3].
  rewrite redistribute_fold.
  do 4 eexists. split; reflexivity.
Qed.

Lemma should_split_level (n : Node) :
  should_split n = true -> (level n < max_level n)%N.
Proof.
  unfold should_split. intros H.
  apply andb_true_iff in H. now apply N.ltb_lt.
Qed.

(** *** The shape of the trees the operations build *)

Lemma split_shaped_insert (t : QuadTree) (o : ptr) :
  split_shaped t -> split_shaped (insert mem t o).
Proof.
  induction t as [n | n c0 IH0 c1 IH1 c2 IH2 c3 IH3].
  - intros _.
    destruct (should_split (with_objects n (node_objects n ++ [o]))) eqn:Hs.
    + destruct (insert_leaf_overflow n o Hs) as (k0 & k1 & k2 & k3 & -> & Hk).
      apply should_split_level in Hs. simpl in Hs.
      unfold quadrants in Hk.
      assert (Hq := split_children_fresh n). unfold quadrants in Hq.
      destruct (split n) as [[[q0 q1] q2] q3] eqn:Hsp.
      simpl in Hk. injection Hk as -> -> -> ->.
      cbn [split_shaped node]. rewrite split_frame, Hsp, !frame_fold_offer.
      assert (H0 := Hq q0 ltac:(simpl; tauto)).
      assert (H1 := Hq q1 ltac:(simpl; tauto)).
      assert (H2 := Hq q2 ltac:(simpl; tauto)).
      assert (H3 := Hq q3 ltac:(simpl; tauto)).
      repeat split; try assumption;
        try (apply leaf_split_shaped; rewrite is_leaf_fold_offer).
      * now rewrite <- H0, <- H1, <- H2, <- H3.
      * now rewrite H0.
      * now rewrite H1.
      * now rewrite H2.
      * now rewrite H3.
    + rewrite (insert_leaf_fits n o Hs). exact I.
  - simpl. intros (Hobjs & Hlvl & Hframes & H0 & H1 & H2 & H3).
    repeat split; try assumption.
    + rewrite <- Hframes.
      repeat (destruct (is_inside mem _ o); rewrite ?frame_insert).
      all: reflexivity.
    + destruct (is_inside mem c0 o); auto.
    + destruct (is_inside mem c1 o); auto.
    + destruct (is_inside mem c2 o); auto.
    + destruct (is_inside mem c3 o); auto.
Qed.

Lemma split_shaped_step (t : QuadTree) (op : Op) :
  split_shaped t -> split_shaped (step mem t op).
Proof.
  destruct op; simpl; intros H;
    [now apply split_shaped_insert | assumption |].
  rewrite clear_spec. exact I.
Qed.

Lemma split_shaped_run (ops : list Op) (t : QuadTree) :
  split_shaped t -> split_shaped (run mem t ops).
Proof.
  unfold run. revert t.
  induction ops as [|op ops IH]; intros t H; simpl; [assumption |].
  now apply IH, split_shaped_step.
Qed.

End Facts.

(** ** The frames of the children of a split *)

Lemma quot2_bounds (a : Z) : 0 <= a -> 0 <= a ÷ 2 <= a.
Proof.
  intros H. rewrite Z.quot_div_nonneg by lia.
  split; [apply Z.div_pos; lia |].
  apply Z.div_le_upper_bound; lia.
Qed.

(** What the invariant [split_shaped] says about one child. *)
Lemma shaped_child (n : Node) (c0 c1 c2 c3 c : QuadTree) :
  (Leaf (frame (node c0)), Leaf (frame (node c1)),
   Leaf (frame (node c2)), Leaf (frame (node c3))) = split n ->
  In c [c0; c1; c2; c3] ->
  exists q, In q (quadrants n) /\ frame (node c) = frame (node q).
Proof.
  intros H Hin. unfold quadrants. rewrite <- H.
  destruct Hin as [<- | [<- | [<- | [<- | []]]]];
    [ exists (Leaf (frame (node c0))) | exists (Leaf (frame (node c1)))
    | exists (Leaf (frame (node c2))) | exists (Leaf (frame (node c3))) ];
    (split; [simpl; tauto | reflexivity]).
Qed.

Lemma quadrant_limits (n : Node) (q : QuadTree) :
  In q (quadrants n) ->
  level (node q) = uint32 (level n + 1)
  /\ max_level (node q) = uint32 (max_level n)
  /\ max_objects (node q) = uint32 (max_objects n).
Proof.
  unfold quadrants, split, QuadTree_new.
  intros [<- | [<- | [<- | [<- | []]]]]; cbn [node level max_level max_objects];
    now rewrite uint32_idem.
Qed.

(** The bounds of a quadrant lie within well-ordered bounds of the parent,
    and are well ordered themselves. *)
Lemma quadrant_bounds (n : Node) (q : QuadTree) :
  ordered n ->
  In q (quadrants n) ->
  ordered (node q)
  /\ Vec2.x (top_left n) <= Vec2.x (top_left (node q))
  /\ Vec2.x (bottom_right (node q)) <= Vec2.x (bottom_right n)
  /\ Vec2.y (top_left n) <= Vec2.y (top_left (node q))
  /\ Vec2.y (bottom_right (node q)) <= Vec2.y (bottom_right n).
Proof.
  intros [Hx Hy].
  pose proof (quot2_bounds (Vec2.x (bottom_right n) - Vec2.x (top_left n))
                ltac:(lia)) as Hw.
  pose proof (quot2_bounds (Vec2.y (bottom_right n) - Vec2.y (top_left n))
                ltac:(lia)) as Hh.
  unfold quadrants, split, QuadTree_new, ordered.
  intros [<- | [<- | [<- | [<- | []]]]];
    cbn [node top_left bottom_right Vec2.x Vec2.y]; lia.
Qed.

Lemma frame_fields (a b : Node) :
  frame a = frame b ->
  top_left a = top_left b /\ bottom_right a = bottom_right b
  /\ max_objects a = max_objects b /\ level a = level b
  /\ max_level a = max_level b.
Proof.
  intros H.
  repeat split;
    [ exact (f_equal top_left H) | exact (f_equal bottom_right H)
    | exact (f_equal max_objects H) | exact (f_equal level H)
    | exact (f_equal max_level H) ].
Qed.

(** ** Depth *)

Lemma depth_ok_shaped (t : QuadTree) :
  split_shaped t ->
  (max_level (node t) < 2 ^ 32)%N ->
  (level (node t) <= max_level (node t))%N ->
  depth_ok (max_level (node t)) t = true.
Proof.
  induction t as [n | n c0 IH0 c1 IH1 c2 IH2 c3 IH3]; intros Hs Hmax Hlvl.
  - simpl. rewrite andb_true_r. now apply N.leb_le.
  - destruct Hs as (_ & Hlt & Hframes & H0 & H1 & H2 & H3).
    cbn [node] in *.
    assert (Hc : forall c, In c [c0; c1; c2; c3] ->
                 level (node c) = (level n + 1)%N
                 /\ max_level (node c) = max_level n).
    { intros c Hin.
      destruct (shaped_child _ _ _ _ _ _ Hframes Hin) as (q & Hq & Hf).
      apply frame_fields in Hf. destruct Hf as (_ & _ & _ & -> & ->).
      destruct (quadrant_limits _ _ Hq) as (-> & -> & _).
      rewrite !uint32_small; [split; reflexivity | lia | lia]. }
    destruct (Hc c0 ltac:(simpl; tauto)) as [L0 M0].
    destruct (Hc c1 ltac:(simpl; tauto)) as [L1 M1].
    destruct (Hc c2 ltac:(simpl; tauto)) as [L2 M2].
    destruct (Hc c3 ltac:(simpl; tauto)) as [L3 M3].
    cbn [depth_ok node forallb].
    rewrite L0, L1, L2, L3, !N.eqb_refl.
    rewrite <- M0 at 2. rewrite <- M1 at 2. rewrite <- M2 at 2.
    rewrite <- M3 at 2.
    rewrite IH0, IH1, IH2, IH3 by (assumption || lia).
    rewrite !andb_true_r. apply N.leb_le. lia.
Qed.

(** ** Retrieval *)

Section Retrieval.

Context {T : Type} {shape : Shape T}.
Variable mem : ptr -> T.

Lemma retrieve_internal (n : Node) (c0 c1 c2 c3 : QuadTree)
    (acc : list ptr) (q : ptr) :
  retrieve mem (Internal n c0 c1 c2 c3) acc q
  = fold_left (visit mem q) [c0; c1; c2; c3] acc.
Proof. reflexivity. Qed.

Lemma visit_app (q : ptr) (c : QuadTree) :
  (forall acc, retrieve mem c acc q = acc ++ retrieve mem c [] q) ->
  forall acc, visit mem q acc c = acc ++ visit mem q [] c.
Proof.
  intros H acc. unfold visit.
  destruct (is_inside mem c q); [apply H | now rewrite app_nil_r].
Qed.

(** The accumulator is extended, never replaced. *)
Lemma retrieve_app (t : QuadTree) (acc : list ptr) (q : ptr) :
  retrieve mem t acc q = acc ++ retrieve mem t [] q.
Proof.
  revert acc.
  induction t as [n | n c0 IH0 c1 IH1 c2 IH2 c3 IH3]; intros acc.
  - simpl. now rewrite !push_all_app.
  - rewrite !retrieve_internal. cbn [fold_left].
    pose proof (visit_app q c0 IH0) as V0.
    pose proof (visit_app q c1 IH1) as V1.
    pose proof (visit_app q c2 IH2) as V2.
    pose proof (visit_app q c3 IH3) as V3.
    rewrite (V3 (visit mem q (visit mem q (visit mem q acc c0) c1) c2)).
    rewrite (V3 (visit mem q (visit mem q (visit mem q [] c0) c1) c2)).
    rewrite (V2 (visit mem q (visit mem q acc c0) c1)).
    rewrite (V2 (visit mem q (visit mem q [] c0) c1)).
    rewrite (V1 (visit mem q acc c0)), (V1 (visit mem q [] c0)), (V0 acc).
    now rewrite <- !app_assoc.
Qed.

Lemma occurrences_app (o : ptr) (v w : list ptr) :
  occurrences o (v ++ w) = (occurrences o v + occurrences o w)%nat.
Proof. apply count_occ_app. Qed.

Lemma occurrences_In (o : ptr) (v : list ptr) :
  In o v <-> (1 <= occurrences o v)%nat.
Proof. unfold occurrences. rewrite (count_occ_In N.eq_dec). lia. Qed.

Lemma count_visit (o q : ptr) (acc : list ptr) (c : QuadTree) :
  (occurrences o acc <= occurrences o (visit mem q acc c))%nat.
Proof.
  unfold visit. destruct (is_inside mem c q); [| apply Nat.le_refl].
  rewrite retrieve_app, occurrences_app. lia.
Qed.

Lemma count_fold_visit (o q : ptr) (cs : list QuadTree) (acc : list ptr) :
  (occurrences o acc <= occurrences o (fold_left (visit mem q) cs acc))%nat.
Proof.
  revert acc. induction cs as [|c cs IH]; intros acc; simpl;
    [apply Nat.le_refl |].
  specialize (IH (visit mem q acc c)).
  pose proof (count_visit o q acc c). lia.
Qed.

(** Whatever a visited child yields ends up in the result of the loop. *)
Lemma count_fold_visit_hit (o q : ptr) (cs : list QuadTree) (c : QuadTree)
    (acc : list ptr) :
  In c cs ->
  is_inside mem c q = true ->
  (occurrences o acc + occurrences o (retrieve mem c [] q)
   <= occurrences o (fold_left (visit mem q) cs acc))%nat.
Proof.
  revert acc. induction cs as [|c' cs IH]; intros acc Hin Hq; [contradiction |].
  simpl. destruct Hin as [-> | Hin].
  - pose proof (count_fold_visit o q cs (visit mem q acc c)) as H.
    assert (Hv : visit mem q acc c = acc ++ retrieve mem c [] q)
      by (unfold visit; rewrite Hq; apply retrieve_app).
    rewrite Hv in H at 1. rewrite occurrences_app in H. exact H.
  - specialize (IH (visit mem q acc c') Hin Hq).
    pose proof (count_visit o q acc c'). lia.
Qed.

(** A query that overlaps a quadrant overlaps the parent, when the bounds of
    the parent are well ordered. *)
Lemma inside_quadrant_inside (t c qd : QuadTree) (q : ptr) :
  ordered (node t) ->
  In qd (quadrants (node t)) ->
  frame (node c) = frame (node qd) ->
  is_inside mem c q = true -> is_inside mem t q = true.
Proof.
  intros Ho Hqd Hf.
  destruct (quadrant_bounds _ _ Ho Hqd) as (_ & Hx1 & Hx2 & Hy1 & Hy2).
  rewrite (is_inside_frame mem c qd q Hf).
  unfold is_inside. rewrite !andb_true_iff, !Z.geb_le, !Z.leb_le. lia.
Qed.

Lemma leaf_inside_root (t l : QuadTree) (q : ptr) :
  split_shaped t -> ordered (node t) ->
  In l (leaves t) ->
  is_inside mem l q = true -> is_inside mem t q = true.
Proof.
  induction t as [n | n c0 IH0 c1 IH1 c2 IH2 c3 IH3]; intros Hs Ho Hin Hq.
  - destruct Hin as [<- | []]. exact Hq.
  - destruct Hs as (_ & _ & Hframes & H0 & H1 & H2 & H3).
    assert (Hc : forall c, In c [c0; c1; c2; c3] ->
                 ordered (node c)
                 /\ (is_inside mem c q = true ->
                     is_inside mem (Internal n c0 c1 c2 c3) q = true)).
    { intros c Hc.
      destruct (shaped_child _ _ _ _ _ _ Hframes Hc) as (qd & Hqd & Hf).
      split.
      - destruct (quadrant_bounds _ _ Ho Hqd) as (Hoq & _).
        apply frame_fields in Hf. destruct Hf as (Htl & Hbr & _).
        unfold ordered. rewrite Htl, Hbr. exact Hoq.
      - now apply (inside_quadrant_inside _ c qd). }
    cbn [leaves] in Hin. rewrite !in_app_iff in Hin.
    destruct Hin as [Hin | [Hin | [Hin | Hin]]].
    + apply (Hc c0); [simpl; tauto |].
      apply IH0; auto. apply (Hc c0). simpl; tauto.
    + apply (Hc c1); [simpl; tauto |].
      apply IH1; auto. apply (Hc c1). simpl; tauto.
    + apply (Hc c2); [simpl; tauto |].
      apply IH2; auto. apply (Hc c2). simpl; tauto.
    + apply (Hc c3); [simpl; tauto |].
      apply IH3; auto. apply (Hc c3). simpl; tauto.
Qed.

Lemma shaped_children_ordered (n : Node) (c0 c1 c2 c3 c : QuadTree) :
  split_shaped (Internal n c0 c1 c2 c3) -> ordered n ->
  In c [c0; c1; c2; c3] ->
  split_shaped c /\ ordered (node c).
Proof.
  intros (_ & _ & Hframes & H0 & H1 & H2 & H3) Ho Hin. split.
  - destruct Hin as [<- | [<- | [<- | [<- | []]]]]; assumption.
  - destruct (shaped_child _ _ _ _ _ _ Hframes Hin) as (qd & Hqd & Hf).
    destruct (quadrant_bounds _ _ Ho Hqd) as (Hoq & _).
    apply frame_fields in Hf. destruct Hf as (Htl & Hbr & _).
    unfold ordered. rewrite Htl, Hbr. exact Hoq.
Qed.

Lemma stored_in_reach_internal (o q : ptr) (n : Node)
    (c0 c1 c2 c3 : QuadTree) :
  stored_in_reach mem o q (Internal n c0 c1 c2 c3)
  = (stored_in_reach mem o q c0 + (stored_in_reach mem o q c1
     + (stored_in_reach mem o q c2 + stored_in_reach mem o q c3)))%nat.
Proof.
  unfold stored_in_reach. cbn [leaves].
  now rewrite !filter_app, !map_app, !list_sum_app.
Qed.

Lemma stored_in_reach_leaf (o q : ptr) (t l : QuadTree) :
  In l (leaves t) -> is_inside mem l q = true ->
  (occurrences o (node_objects (node l)) <= stored_in_reach mem o q t)%nat.
Proof.
  intros Hin Hq. unfold stored_in_reach.
  assert (Hf : In l (filter (fun l => is_inside mem l q) (leaves t)))
    by (apply filter_In; now split).
  induction (filter (fun l => is_inside mem l q) (leaves t)) as [|a ls IH];
    [contradiction |].
  simpl. destruct Hf as [-> | Hf]; [lia |].
  specialize (IH Hf). lia.
Qed.

(** A subtree the query does not overlap has no leaf the query overlaps. *)
Lemma stored_in_reach_outside (o q : ptr) (t : QuadTree) :
  split_shaped t -> ordered (node t) ->
  is_inside mem t q = false -> stored_in_reach mem o q t = 0%nat.
Proof.
  intros Hs Ho Hq. unfold stored_in_reach.
  assert (Hnone : forall l, In l (leaves t) -> is_inside mem l q = false).
  { intros l Hin. destruct (is_inside mem l q) eqn:E; [| reflexivity].
    rewrite (leaf_inside_root t l q Hs Ho Hin E) in Hq. discriminate. }
  induction (leaves t) as [|a ls IH]; [reflexivity |].
  simpl. rewrite (Hnone a) by (simpl; tauto).
  apply IH. intros l Hl. apply Hnone. simpl; tauto.
Qed.

(** [retrieve] returns, besides the accumulator, at least every reference
    held by a leaf the query overlaps, as many times as it is held. *)
Lemma retrieve_lower_bound (t : QuadTree) (o q : ptr) (acc : list ptr) :
  split_shaped t -> ordered (node t) ->
  (occurrences o acc + stored_in_reach mem o q t
   <= occurrences o (retrieve mem t acc q))%nat.
Proof.
  revert acc.
  induction t as [n | n c0 IH0 c1 IH1 c2 IH2 c3 IH3]; intros acc Hs Ho.
  - cbn [retrieve]. rewrite push_all_app, occurrences_app.
    unfold stored_in_reach. cbn [leaves filter].
    destruct (is_inside mem (Leaf n) q); simpl; lia.
  - assert (Hv : forall c v, In c [c0; c1; c2; c3] ->
             (forall acc, split_shaped c -> ordered (node c) ->
                (occurrences o acc + stored_in_reach mem o q c
                 <= occurrences o (retrieve mem c acc q))%nat) ->
             (occurrences o v + stored_in_reach mem o q c
              <= occurrences o (visit mem q v c))%nat).
    { intros c v Hin IH.
      destruct (shaped_children_ordered _ _ _ _ _ c Hs Ho Hin) as [Hsc Hoc].
      unfold visit. destruct (is_inside mem c q) eqn:E.
      - now apply IH.
      - rewrite (stored_in_reach_outside o q c Hsc Hoc E). lia. }
    rewrite retrieve_internal, stored_in_reach_internal. cbn [fold_left].
    pose proof (Hv c0 acc ltac:(simpl; tauto) IH0).
    pose proof (Hv c1 (visit mem q acc c0) ltac:(simpl; tauto) IH1).
    pose proof (Hv c2 (visit mem q (visit mem q acc c0) c1) ltac:(simpl; tauto) IH2).
    pose proof (Hv c3 (visit mem q (visit mem q (visit mem q acc c0) c1) c2)
                  ltac:(simpl; tauto) IH3).
    lia.
Qed.

(** Two children visited by the loop both contribute. *)
Lemma count_fold_visit_two (o q : ptr) (cs : list QuadTree)
    (i j : nat) (ci cj : QuadTree) (acc : list ptr) :
  (i < j)%nat ->
  nth_error cs i = Some ci -> nth_error cs j = Some cj ->
  is_inside mem ci q = true -> is_inside mem cj q = true ->
  (occurrences o acc + occurrences o (retrieve mem ci [] q)
   + occurrences o (retrieve mem cj [] q)
   <= occurrences o (fold_left (visit mem q) cs acc))%nat.
Proof.
  revert i j acc.
  induction cs as [|c cs IH]; intros i j acc Hij Hi Hj Hqi Hqj.
  - destruct i; discriminate.
  - destruct j as [|j]; [lia |]. cbn [nth_error] in Hj. cbn [fold_left].
    destruct i as [|i].
    + injection Hi as ->.
      pose proof (count_fold_visit_hit o q cs cj (visit mem q acc ci)
                    (nth_error_In _ _ Hj) Hqj) as H.
      assert (Hv : visit mem q acc ci = acc ++ retrieve mem ci [] q)
        by (unfold visit; rewrite Hqi; apply retrieve_app).
      rewrite Hv in H at 1. rewrite occurrences_app in H. exact H.
    + cbn [nth_error] in Hi.
      specialize (IH i j (visit mem q acc c) ltac:(lia) Hi Hj Hqi Hqj).
      pose proof (count_visit o q acc c). lia.
Qed.

End Retrieval.

(** ** Insertion at a leaf, in closed form *)

Section Insertion.

Context {T : Type} {shape : Shape T}.
Variable mem : ptr -> T.

Lemma fold_offer_leaf (pending : list ptr) (n : Node) :
  fold_left (offer mem) pending (Leaf n)
  = Leaf (with_objects n
            (node_objects n ++ filter (is_inside mem (Leaf n)) pending)).
Proof.
  revert n. induction pending as [|o rest IH]; intros n.
  - simpl. rewrite app_nil_r. now destruct n.
  - cbn [fold_left filter]. unfold offer at 2.
    destruct (is_inside mem (Leaf n) o) eqn:E.
    + cbn [push_object]. rewrite IH. cbn [with_objects node_objects].
      now rewrite <- app_assoc.
    + apply IH.
Qed.

(** The children a splitting leaf ends up with: each quadrant holds the
    objects of the leaf that its bounds overlap, last inserted first. *)
Lemma children_insert_overflow (n : Node) (o : ptr) :
  should_split (with_objects n (node_objects n ++ [o])) = true ->
  children_nodes (insert mem (Leaf n) o)
  = map (fun q => Leaf (with_objects (node q)
                          (filter (is_inside mem q)
                             (rev (node_objects n ++ [o])))))
      (quadrants n).
Proof.
  intros H.
  destruct (insert_leaf_overflow mem n o H) as (k0 & k1 & k2 & k3 & -> & Hk).
  cbn [children_nodes]. rewrite Hk. apply map_ext_in.
  intros q Hq. rewrite (split_children_fresh n q Hq) at 1.
  rewrite fold_offer_leaf. cbn [frame with_objects node_objects app node].
  rewrite (split_children_fresh n q Hq) at 3. reflexivity.
Qed.

Lemma insert_leaf_result (t : QuadTree) (o : ptr) (l : Node) :
  insert mem t o = Leaf l ->
  exists n, t = Leaf n /\ l = with_objects n (node_objects n ++ [o]).
Proof.
  destruct t as [n | n c0 c1 c2 c3]; [| discriminate].
  destruct (should_split (with_objects n (node_objects n ++ [o]))) eqn:Hs.
  - destruct (insert_leaf_overflow mem n o Hs) as (? & ? & ? & ? & -> & _).
    discriminate.
  - rewrite (insert_leaf_fits mem n o Hs). intros [= <-]. now exists n.
Qed.

(** [retrieve] returns nothing but the accumulator and what leaves hold. *)
Lemma retrieve_only_stored (t : QuadTree) (p q : ptr) (acc : list ptr) :
  In p (retrieve mem t acc q) ->
  In p acc \/ exists l, In l (leaves t) /\ In p (node_objects (node l)).
Proof.
  revert acc.
  induction t as [n | n c0 IH0 c1 IH1 c2 IH2 c3 IH3]; intros acc.
  - cbn [retrieve]. rewrite push_all_app, in_app_iff.
    intros [H | H]; [now left | right].
    exists (Leaf n). split; [now left | exact H].
  - assert (Hv : forall c v,
               (forall acc, In p (retrieve mem c acc q) ->
                  In p acc \/ exists l, In l (leaves c)
                                        /\ In p (node_objects (node l))) ->
               In p (visit mem q v c) ->
               In p v \/ exists l, In l (leaves c)
                                   /\ In p (node_objects (node l))).
    { intros c v IH. unfold visit.
      destruct (is_inside mem c q); [apply IH | now left]. }
    rewrite retrieve_internal. cbn [fold_left leaves]. intros H.
    apply (Hv c3 _ IH3) in H. destruct H as [H | (l & Hl & Hp)].
    2: { right. exists l. rewrite !in_app_iff. tauto. }
    apply (Hv c2 _ IH2) in H. destruct H as [H | (l & Hl & Hp)].
    2: { right. exists l. rewrite !in_app_iff. tauto. }
    apply (Hv c1 _ IH1) in H. destruct H as [H | (l & Hl & Hp)].
    2: { right. exists l. rewrite !in_app_iff. tauto. }
    apply (Hv c0 _ IH0) in H. destruct H as [H | (l & Hl & Hp)].
    2: { right. exists l. rewrite !in_app_iff. tauto. }
    now left.
Qed.

End Insertion.

(** ** The overlap test *)

(** C6. [is_inside] holds exactly when
    [object.x + object.width >= top_left.x], [object.x <= bottom_right.x],
    [object.y + object.height >= top_left.y] and
    [object.y <= bottom_right.y]: the inclusive overlap test on all four
    edges. *)
Theorem is_inside_inclusive_overlap {T : Type} {shape : Shape T}
    (mem : ptr -> T) (t : QuadTree) (object : ptr) :
  is_inside mem t object = true <->
  Vec2.x (getPosition (mem object)) + Vec2.x (getSize (mem object))
    >= Vec2.x (top_left (node t))
  /\ Vec2.x (getPosition (mem object)) <= Vec2.x (bottom_right (node t))
  /\ Vec2.y (getPosition (mem object)) + Vec2.y (getSize (mem object))
       >= Vec2.y (top_left (node t))
  /\ Vec2.y (getPosition (mem object)) <= Vec2.y (bottom_right (node t)).
Proof.
  unfold is_inside.
  rewrite !andb_true_iff, !Z.geb_le, !Z.leb_le. lia.
Qed.

(** An object that only touches an edge or a corner of the bounds is inside:
    here the right edge of the object lies on the left edge of the node, and
    the top-left corner of another on the bottom-right corner of the node. *)
Example touching_is_inside :
  is_inside (storage [rect (-5) 20 5 5; rect 100 100 3 3]) demo_tree 0%N = true
  /\ is_inside (storage [rect (-5) 20 5 5; rect 100 100 3 3]) demo_tree 1%N
     = true
  /\ is_inside (storage [rect (-6) 20 5 5]) demo_tree 0%N = false.
Proof. repeat split; reflexivity. Qed.

(** ** Clearing *)

(** C7. After any sequence of calls on a freshly constructed tree, [clear]
    leaves the tree the constructor built: one leaf without objects and
    without children, with the bounds, level and limits it was constructed
    with.  Clearing an empty tree changes nothing and clearing twice is
    clearing once. *)
Theorem clear_resets_and_is_idempotent {T : Type} {shape : Shape T}
    (mem : ptr -> T) (pLevel : N) (tl br : Bound) (max_objs max_lvl : N)
    (ops : list Op) (t : QuadTree) :
  clear (run mem (QuadTree_new pLevel tl br max_objs max_lvl) ops)
  = QuadTree_new pLevel tl br max_objs max_lvl
  /\ clear (QuadTree_new pLevel tl br max_objs max_lvl)
     = QuadTree_new pLevel tl br max_objs max_lvl
  /\ clear t = Leaf (with_objects (node t) [])
  /\ clear (clear t) = clear t.
Proof.
  split; [| split; [| split]].
  - rewrite clear_spec, frame_run. reflexivity.
  - reflexivity.
  - apply clear_spec.
  - now rewrite !clear_spec.
Qed.

(** ** The end-to-end scenario *)

(** C9. In a tree over (0,0)-(100,100) with [max_objects = 1] and
    [max_level = 4], inserting A at (10,10) of size (5,5) leaves the root a
    leaf; inserting B at (60,60) of size (5,5) makes it hold two objects and
    split, A going to the top-left child and B to the bottom-right one; a
    query at (10,10) of size (5,5) then returns A alone, and a query spanning
    (0,0)-(100,100) returns A and B. *)
Theorem end_to_end_scenario :
  let t1 := insert demo_mem demo_tree obj_A in
  let t2 := insert demo_mem t1 obj_B in
  is_leaf t1 = true
  /\ node_objects (node t1) = [obj_A]
  /\ length (node_objects (node t1) ++ [obj_B]) = 2%nat
  /\ should_split (with_objects (node t1) (node_objects (node t1) ++ [obj_B]))
     = true
  /\ is_leaf t2 = false
  /\ map (fun c => (is_leaf c, node_objects (node c))) (children_nodes t2)
     = [(true, []); (true, [obj_A]); (true, []); (true, [obj_B])]
  /\ retrieve demo_mem t2 [] query_small = [obj_A]
  /\ retrieve demo_mem t2 [] query_all = [obj_A; obj_B].
Proof. cbv zeta. repeat split; vm_compute; reflexivity. Qed.

(** ** Dispatch in [insert] *)

(** C2. At an internal node [insert] leaves the node itself alone and
    replaces each of the four children by the result of inserting the object
    into it when the bounds of the child overlap the object, and keeps the
    child as it is otherwise; an object overlapping several children is thus
    inserted into each of them.  At a leaf the reference is appended to the
    list of the node: the list is kept when no split is due, and is what the
    split distributes over the quadrants otherwise. *)
Theorem insert_dispatch {T : Type} {shape : Shape T} (mem : ptr -> T)
    (n : Node) (c0 c1 c2 c3 : QuadTree) (object : ptr) :
  let n' := with_objects n (node_objects n ++ [object]) in
  node (insert mem (Internal n c0 c1 c2 c3) object) = n
  /\ children_nodes (insert mem (Internal n c0 c1 c2 c3) object)
     = map (fun c => if is_inside mem c object then insert mem c object else c)
         [c0; c1; c2; c3]
  /\ (should_split n' = false -> insert mem (Leaf n) object = Leaf n')
  /\ (should_split n' = true ->
      is_leaf (insert mem (Leaf n) object) = false
      /\ node (insert mem (Leaf n) object) = with_objects n []
      /\ children_nodes (insert mem (Leaf n) object)
         = map (fun q => Leaf (with_objects (node q)
                                 (filter (is_inside mem q)
                                    (rev (node_objects n')))))
             (quadrants n)).
Proof.
  cbv zeta. split; [reflexivity | split; [reflexivity | split]].
  - apply insert_leaf_fits.
  - intros H. split; [| split].
    + destruct (insert_leaf_overflow mem n object H)
        as (? & ? & ? & ? & -> & _). reflexivity.
    + destruct (insert_leaf_overflow mem n object H)
        as (? & ? & ? & ? & -> & _). reflexivity.
    + now apply children_insert_overflow.
Qed.

(** Both cases of the leaf: the first insertion of the scenario fits, the
    second one splits the root. *)
Lemma insert_dispatch_witness :
  insert demo_mem (Leaf (node demo_tree)) obj_A
  = Leaf (with_objects (node demo_tree) [obj_A])
  /\ children_nodes (insert demo_mem (insert demo_mem demo_tree obj_A) obj_B)
     = map (fun q => Leaf (with_objects (node q)
                             (filter (is_inside demo_mem q) [obj_B; obj_A])))
         (quadrants (node demo_tree)).
Proof.
  split.
  - apply (insert_dispatch demo_mem (node demo_tree)
             demo_tree demo_tree demo_tree demo_tree obj_A).
    reflexivity.
  - apply (insert_dispatch demo_mem
             (node (insert demo_mem demo_tree obj_A))
             demo_tree demo_tree demo_tree demo_tree obj_B).
    reflexivity.
Defined.

(** ** The depth bound *)

Lemma insert_at_max_level {T : Type} {shape : Shape T} (mem : ptr -> T)
    (n : Node) (object : ptr) :
  (max_level n <= level n)%N ->
  insert mem (Leaf n) object
  = Leaf (with_objects n (node_objects n ++ [object])).
Proof.
  intros H. apply insert_leaf_fits. unfold should_split.
  cbn [with_objects level max_level].
  replace (level n <? max_level n)%N with false
    by (symmetry; apply N.ltb_ge; exact H).
  apply andb_false_r.
Qed.

Lemma insert_all_at_max_level {T : Type} {shape : Shape T} (mem : ptr -> T)
    (objs : list ptr) (n : Node) :
  (max_level n <= level n)%N ->
  insert_all mem (Leaf n) objs
  = Leaf (with_objects n (node_objects n ++ objs)).
Proof.
  unfold insert_all. revert n.
  induction objs as [|o objs IH]; intros n H.
  - simpl. rewrite app_nil_r. now destruct n.
  - cbn [fold_left]. rewrite (insert_at_max_level mem n o H), IH by exact H.
    cbn [with_objects node_objects]. now rewrite <- app_assoc.
Qed.

Lemma depth_ok_run {T : Type} {shape : Shape T} (mem : ptr -> T)
    (pLevel : N) (tl br : Bound) (max_objs max_lvl : N) (ops : list Op) :
  (uint32 pLevel <= uint32 max_lvl)%N ->
  depth_ok (uint32 max_lvl)
    (run mem (QuadTree_new pLevel tl br max_objs max_lvl) ops) = true.
Proof.
  intros Hroot.
  set (t := run mem (QuadTree_new pLevel tl br max_objs max_lvl) ops).
  assert (Hs : split_shaped t) by (apply split_shaped_run; exact I).
  assert (Hf : frame (node t)
               = frame (node (QuadTree_new pLevel tl br max_objs max_lvl)))
    by apply frame_run.
  apply frame_fields in Hf. destruct Hf as (_ & _ & _ & Hl & Hm).
  change (max_level (node (QuadTree_new pLevel tl br max_objs max_lvl)))
    with (uint32 max_lvl) in Hm.
  change (level (node (QuadTree_new pLevel tl br max_objs max_lvl)))
    with (uint32 pLevel) in Hl.
  rewrite <- Hm. apply depth_ok_shaped; [exact Hs | |].
  - rewrite Hm. apply uint32_lt.
  - rewrite Hl, Hm. exact Hroot.
Qed.

(** C4. In every tree obtained from a root constructed at level 0, or at any
    level up to [max_level], by any sequence of [insert], [retrieve] and
    [clear] calls, each child is one level below its parent and no node lies
    deeper than [max_level].  A leaf at [max_level] never splits, whatever
    and however much is inserted: it stays a leaf holding all of it.  With
    [max_level = 0] the root stays one leaf holding every object inserted, a
    thousand of them as well as any other number. *)
Theorem depth_bound {T : Type} {shape : Shape T} (mem : ptr -> T)
    (pLevel : N) (tl br : Bound) (max_objs max_lvl : N) (ops : list Op)
    (n : Node) (object : ptr) (objs : list ptr) :
  depth_ok (uint32 max_lvl)
    (run mem (QuadTree_new 0 tl br max_objs max_lvl) ops) = true
  /\ ((uint32 pLevel <= uint32 max_lvl)%N ->
      depth_ok (uint32 max_lvl)
        (run mem (QuadTree_new pLevel tl br max_objs max_lvl) ops) = true)
  /\ (level n = max_level n ->
      insert mem (Leaf n) object
      = Leaf (with_objects n (node_objects n ++ [object]))
      /\ insert_all mem (Leaf n) objs
         = Leaf (with_objects n (node_objects n ++ objs)))
  /\ insert_all mem (QuadTree_new 0 tl br max_objs 0) objs
     = Leaf (with_objects (node (QuadTree_new 0 tl br max_objs 0)) objs).
Proof.
  split; [| split; [| split]].
  - apply depth_ok_run. apply N.le_0_l.
  - apply depth_ok_run.
  - intros H. split.
    + apply insert_at_max_level. rewrite H. apply N.le_refl.
    + apply insert_all_at_max_level. rewrite H. apply N.le_refl.
  - unfold QuadTree_new. rewrite insert_all_at_max_level; [reflexivity |].
    apply N.le_0_l.
Qed.

(** A thousand objects in a tree with [max_level = 0] and [max_objects = 4],
    and a leaf at its maximal level taking one more object. *)
Lemma depth_bound_witness :
  length (node_objects (node
    (insert_all demo_mem (QuadTree_new 0 (Vec2.mk 0 0) (Vec2.mk 100 100) 4 0)
       (repeat obj_A 1000)))) = 1000%nat
  /\ insert demo_mem
       (Leaf (mkNode [obj_A; obj_A] (Vec2.mk 0 0) (Vec2.mk 9 9) 1 3 3)) obj_B
     = Leaf (mkNode [obj_A; obj_A; obj_B] (Vec2.mk 0 0) (Vec2.mk 9 9) 1 3 3)
  /\ depth_ok 4
       (run demo_mem (QuadTree_new 2 (Vec2.mk 0 0) (Vec2.mk 100 100) 1 4)
          [OpInsert obj_A; OpInsert obj_B; OpRetrieve [] query_all;
           OpInsert obj_A]) = true.
Proof.
  split; [| split].
  - destruct (depth_bound demo_mem 0 (Vec2.mk 0 0) (Vec2.mk 100 100) 4 0 []
                (node demo_tree) obj_A (repeat obj_A 1000))
      as (_ & _ & _ & ->).
    cbn [node with_objects node_objects QuadTree_new]. apply repeat_length.
  - apply (depth_bound demo_mem 0 (Vec2.mk 0 0) (Vec2.mk 0 0) 0 0 []
             (mkNode [obj_A; obj_A] (Vec2.mk 0 0) (Vec2.mk 9 9) 1 3 3)
             obj_B []).
    reflexivity.
  - apply (depth_bound demo_mem 2 (Vec2.mk 0 0) (Vec2.mk 100 100) 1 4
             [OpInsert obj_A; OpInsert obj_B; OpRetrieve [] query_all;
              OpInsert obj_A]
             (node demo_tree) obj_A []).
    vm_compute. discriminate.
Defined.

(** ** Soundness of retrieval *)

(** C1. In a tree built by any sequence of calls from a root whose top-left
    corner is not beyond its bottom-right corner, an object stored in a leaf
    whose bounds overlap the query is returned by [retrieve], which extends
    the accumulator it is given.  (That the object and the query overlap each
    other is not needed.) *)
Theorem retrieval_soundness {T : Type} {shape : Shape T} (mem : ptr -> T)
    (pLevel : N) (tl br : Bound) (max_objs max_lvl : N) (ops : list Op)
    (l : QuadTree) (o q : ptr) (acc : list ptr) :
  Vec2.x tl <= Vec2.x br -> Vec2.y tl <= Vec2.y br ->
  let t := run mem (QuadTree_new pLevel tl br max_objs max_lvl) ops in
  In l (leaves t) ->
  In o (node_objects (node l)) ->
  is_inside mem l q = true ->
  In o (retrieve mem t acc q)
  /\ retrieve mem t acc q = acc ++ retrieve mem t [] q.
Proof.
  intros Hx Hy t Hl Ho Hq. split; [| apply retrieve_app].
  assert (Hs : split_shaped t) by (apply split_shaped_run; exact I).
  assert (Hord : ordered (node t)).
  { assert (Hf : frame (node t)
                 = frame (node (QuadTree_new pLevel tl br max_objs max_lvl)))
      by apply frame_run.
    apply frame_fields in Hf. destruct Hf as (Htl & Hbr & _).
    unfold ordered. rewrite Htl, Hbr. split; assumption. }
  apply occurrences_In.
  pose proof (retrieve_lower_bound mem t o q acc Hs Hord) as Hlow.
  pose proof (stored_in_reach_leaf mem o q t l Hl Hq) as Hleaf.
  apply occurrences_In in Ho. lia.
Qed.

(** In the scenario, A sits in the top-left child, which the small query
    overlaps. *)
Lemma retrieval_soundness_witness :
  In obj_A
    (retrieve demo_mem
       (run demo_mem demo_tree [OpInsert obj_A; OpInsert obj_B])
       [obj_B] query_small).
Proof.
  apply (retrieval_soundness demo_mem 0 (Vec2.mk 0 0) (Vec2.mk 100 100) 1 4
           [OpInsert obj_A; OpInsert obj_B]
           (Leaf (mkNode [obj_A] (Vec2.mk 0 0) (Vec2.mk 50 50) 1 1 4))
           obj_A query_small [obj_B]).
  - vm_compute. discriminate.
  - vm_compute. discriminate.
  - vm_compute. right. left. reflexivity.
  - left. reflexivity.
  - reflexivity.
Defined.

(** Why the bounds of the root are taken well ordered: in a region given
    the wrong way round a child need not lie within its parent, and a query
    can overlap a leaf without overlapping the child of the root above it.
    Here the object at address 0 sits in such a leaf and is not returned. *)
Example retrieval_in_backwards_bounds :
  let t := insert_all backwards_mem backwards_tree [0; 1; 2]%N in
  existsb (fun l => is_inside backwards_mem l 3%N
                    && existsb (N.eqb 0) (node_objects (node l)))
    (leaves t) = true
  /\ retrieve backwards_mem t [] 3%N = [].
Proof. cbv zeta. split; vm_compute; reflexivity. Qed.

(** ** The geometry of [split] *)

Lemma quot2_even (a : Z) : Z.even a = true -> a = 2 * (a ÷ 2).
Proof.
  intros H. apply Z.even_spec in H. destruct H as [k ->].
  rewrite (Z.mul_comm 2 k), Z.quot_mul by discriminate. lia.
Qed.

(** C3, as amended.  For a node with top-left (l,t) and bottom-right (r,b),
    [split] computes hw = (r-l)/2 and hh = (b-t)/2 and creates exactly four
    empty leaves with the limits of the node and the bounds
    (l+hw,t)-(r,t+hh), (l,t)-(l+hw,t+hh), (l,t+hh)-(l+hw,b) and
    (l+hw,t+hh)-(r,b), one level below the node whenever the node lies above
    [max_level].  When l <= r and t <= b the four rectangles cover the
    bounds of the node exactly, two of them share only points of the lines
    x = l+hw and y = t+hh, and each is hw or hw+1 wide and hh or hh+1 high;
    all four are hw wide and hh high when r-l and b-t are even. *)
Theorem split_geometry (n : Node) (p : Vec2.t) (i j : nat) (ci cj : QuadTree) :
  let l := Vec2.x (top_left n) in
  let t := Vec2.y (top_left n) in
  let r := Vec2.x (bottom_right n) in
  let b := Vec2.y (bottom_right n) in
  let hw := (r - l) ÷ 2 in
  let hh := (b - t) ÷ 2 in
  quadrants n
  = [ QuadTree_new (uint32 (level n + 1))
        (Vec2.mk (l + hw) t) (Vec2.mk r (t + hh))
        (max_objects n) (max_level n);
      QuadTree_new (uint32 (level n + 1))
        (Vec2.mk l t) (Vec2.mk (l + hw) (t + hh))
        (max_objects n) (max_level n);
      QuadTree_new (uint32 (level n + 1))
        (Vec2.mk l (t + hh)) (Vec2.mk (l + hw) b)
        (max_objects n) (max_level n);
      QuadTree_new (uint32 (level n + 1))
        (Vec2.mk (l + hw) (t + hh)) (Vec2.mk r b)
        (max_objects n) (max_level n) ]
  /\ ((level n < max_level n)%N -> (max_level n < 2 ^ 32)%N ->
      forall c, In c (quadrants n) -> level (node c) = (level n + 1)%N)
  /\ (ordered n ->
      (contains (Leaf n) p <-> exists c, In c (quadrants n) /\ contains c p)
      /\ (i <> j -> nth_error (quadrants n) i = Some ci ->
          nth_error (quadrants n) j = Some cj ->
          contains ci p -> contains cj p ->
          Vec2.x p = l + hw \/ Vec2.y p = t + hh)
      /\ (forall c, In c (quadrants n) ->
          hw <= width c <= hw + 1 /\ hh <= height c <= hh + 1))
  /\ (Z.even (r - l) = true -> Z.even (b - t) = true ->
      forall c, In c (quadrants n) -> width c = hw /\ height c = hh).
Proof.
  intros l t r b hw hh.
  split; [reflexivity | split; [| split]].
  - intros Hlt Hmax c Hc.
    destruct (quadrant_limits n c Hc) as (-> & _).
    apply uint32_small. lia.
  - intros [Hx Hy]. fold l r in Hx. fold t b in Hy.
    assert (Hw : 0 <= hw /\ 2 * hw <= r - l <= 2 * hw + 1).
    { unfold hw. rewrite Z.quot_div_nonneg by lia.
      pose proof (Z.div_mod (r - l) 2 ltac:(lia)).
      pose proof (Z.mod_pos_bound (r - l) 2 ltac:(lia)). lia. }
    assert (Hh : 0 <= hh /\ 2 * hh <= b - t <= 2 * hh + 1).
    { unfold hh. rewrite Z.quot_div_nonneg by lia.
      pose proof (Z.div_mod (b - t) 2 ltac:(lia)).
      pose proof (Z.mod_pos_bound (b - t) 2 ltac:(lia)). lia. }
    unfold quadrants, split, QuadTree_new, contains, width, height.
    fold l t r b. fold hw hh. cbn [node top_left bottom_right Vec2.x Vec2.y].
    split; [| split].
    + split.
      * intros Hp.
        destruct (Z_le_gt_dec (Vec2.x p) (l + hw)),
          (Z_le_gt_dec (Vec2.y p) (t + hh)).
        -- eexists. split; [right; left; reflexivity |].
           cbn [node top_left bottom_right Vec2.x Vec2.y]. lia.
        -- eexists. split; [right; right; left; reflexivity |].
           cbn [node top_left bottom_right Vec2.x Vec2.y]. lia.
        -- eexists. split; [left; reflexivity |].
           cbn [node top_left bottom_right Vec2.x Vec2.y]. lia.
        -- eexists. split; [right; right; right; left; reflexivity |].
           cbn [node top_left bottom_right Vec2.x Vec2.y]. lia.
      * intros (c & [<- | [<- | [<- | [<- | []]]]] & Hc);
          cbn [node top_left bottom_right Vec2.x Vec2.y] in Hc; lia.
    + intros Hij Hi Hj.
      destruct i as [|[|[|[|i]]]]; cbn [nth_error] in Hi;
        try (destruct i; discriminate); injection Hi as <-;
        (destruct j as [|[|[|[|j]]]]; cbn [nth_error] in Hj;
         try (destruct j; discriminate); injection Hj as <-;
         try congruence);
        cbn [node top_left bottom_right Vec2.x Vec2.y]; lia.
    + intros c [<- | [<- | [<- | [<- | []]]]];
        cbn [node top_left bottom_right Vec2.x Vec2.y]; lia.
  - intros Ew Eh c.
    apply quot2_even in Ew, Eh. fold hw in Ew. fold hh in Eh.
    unfold quadrants, split, QuadTree_new, width, height.
    fold l t r b. fold hw hh.
    intros [<- | [<- | [<- | [<- | []]]]];
      cbn [node top_left bottom_right Vec2.x Vec2.y]; lia.
Qed.

(** The region of the scenario: (0,0)-(100,100) splits at (50,50). *)
Lemma split_geometry_witness :
  (contains demo_tree (Vec2.mk 50 70)
   <-> exists c, In c (quadrants (node demo_tree))
                 /\ contains c (Vec2.mk 50 70))
  /\ (forall c, In c (quadrants (node demo_tree)) ->
      width c = 50 /\ height c = 50)
  /\ (forall c, In c (quadrants (node demo_tree)) -> level (node c) = 1%N).
Proof.
  pose proof (split_geometry (node demo_tree) (Vec2.mk 50 70) 2 3
                (Leaf (mkNode [] (Vec2.mk 0 50) (Vec2.mk 50 100) 1 1 4))
                (Leaf (mkNode [] (Vec2.mk 50 50) (Vec2.mk 100 100) 1 1 4)))
    as (_ & Hlevel & Hcover & Heven).
  split; [| split].
  - apply Hcover. split; vm_compute; discriminate.
  - apply Heven; reflexivity.
  - apply Hlevel; reflexivity.
Defined.

(** C3 as stated fails where it promises equal quadrants: halving
    truncates, so the region (0,0)-(3,3) splits at (1,1) into a top-left
    quadrant 1 wide and 1 high and a bottom-right one 2 wide and 2 high. *)
Lemma split_geometry_counterexample :
  ~ equal_quadrants (mkNode [] (Vec2.mk 0 0) (Vec2.mk 3 3) 1 0 4)
  /\ map (fun c => (top_left (node c), bottom_right (node c)))
       (quadrants (mkNode [] (Vec2.mk 0 0) (Vec2.mk 3 3) 1 0 4))
     = [ (Vec2.mk 1 0, Vec2.mk 3 1); (Vec2.mk 0 0, Vec2.mk 1 1);
         (Vec2.mk 0 1, Vec2.mk 1 3); (Vec2.mk 1 1, Vec2.mk 3 3) ]
  /\ map width (quadrants (mkNode [] (Vec2.mk 0 0) (Vec2.mk 3 3) 1 0 4))
     = [2; 1; 1; 2].
Proof.
  split; [| split].
  - vm_compute. intros (H & _). discriminate H.
  - reflexivity.
  - reflexivity.
Qed.

(** Why the bounds are taken with l <= r and t <= b: the empty region
    (0,0)-(-1,0) gets a child (0,0)-(0,0), which contains a point. *)
Example split_of_backwards_bounds :
  exists c,
    In c (quadrants (mkNode [] (Vec2.mk 0 0) (Vec2.mk (-1) 0) 1 0 4))
    /\ contains c (Vec2.mk 0 0)
    /\ ~ contains (Leaf (mkNode [] (Vec2.mk 0 0) (Vec2.mk (-1) 0) 1 0 4))
           (Vec2.mk 0 0).
Proof.
  exists (Leaf (mkNode [] (Vec2.mk 0 0) (Vec2.mk 0 0) 1 1 4)).
  split; [right; left; reflexivity |].
  split; [vm_compute; intuition discriminate |].
  vm_compute. intros [[_ H] _]. apply H. reflexivity.
Qed.

(** ** Capacity of the leaves *)

(** C5, at the input where it fails.  With [max_objects = 1] and
    [max_level = 4] the second insertion splits the root and pushes both
    objects onto the list of the top-left child without the test that guards
    a split: once [insert] has returned, that child is a leaf at level 1
    holding two objects. *)
Theorem capacity_exceeded_after_redistribution :
  let t2 := insert crowd_mem (insert crowd_mem demo_tree 0%N) 1%N in
  within_capacity t2 = false
  /\ nth_error (children_nodes t2) 1
     = Some (Leaf (mkNode [1%N; 0%N] (Vec2.mk 0 0) (Vec2.mk 50 50) 1 1 4)).
Proof. cbv zeta. split; vm_compute; reflexivity. Qed.

(** ** Duplicates across siblings *)

(** C8, as amended.  When an object whose rectangle overlaps two quadrants
    of a split node is inserted and both quadrants are leaves once the
    insertion is over (so that the object is stored in two sibling leaves), a
    query overlapping both quadrants gets the reference to the object at
    least twice, on top of what the accumulator held. *)
Theorem duplicate_tolerance {T : Type} {shape : Shape T} (mem : ptr -> T)
    (n : Node) (c0 c1 c2 c3 : QuadTree) (o q : ptr) (acc : list ptr)
    (i j : nat) (ci cj : QuadTree) (li lj : Node) :
  let t := Internal n c0 c1 c2 c3 in
  i <> j ->
  nth_error (children_nodes t) i = Some ci ->
  nth_error (children_nodes t) j = Some cj ->
  is_inside mem ci o = true -> is_inside mem cj o = true ->
  nth_error (children_nodes (insert mem t o)) i = Some (Leaf li) ->
  nth_error (children_nodes (insert mem t o)) j = Some (Leaf lj) ->
  is_inside mem ci q = true -> is_inside mem cj q = true ->
  (occurrences o acc + 2 <= occurrences o (retrieve mem (insert mem t o) acc q))%nat.
Proof.
  intros t Hij Hi Hj Hoi Hoj Hli Hlj Hqi Hqj.
  assert (Hch : children_nodes (insert mem t o)
                = map (fun c => if is_inside mem c o then insert mem c o else c)
                    (children_nodes t)) by reflexivity.
  rewrite Hch in Hli, Hlj.
  rewrite nth_error_map, Hi in Hli. rewrite nth_error_map, Hj in Hlj.
  cbn [option_map] in Hli, Hlj. rewrite Hoi in Hli. rewrite Hoj in Hlj.
  injection Hli as Hli. injection Hlj as Hlj.
  assert (Hhit : forall c l, insert mem c o = Leaf l ->
                 is_inside mem c q = true ->
                 is_inside mem (Leaf l) q = true
                 /\ (1 <= occurrences o (retrieve mem (Leaf l) [] q))%nat).
  { intros c l Hl Hq. split.
    - rewrite <- Hl, is_inside_insert. exact Hq.
    - destruct (insert_leaf_result mem c o l Hl) as (m & _ & ->).
      cbn [retrieve]. rewrite push_all_app. cbn [app with_objects node_objects].
      rewrite occurrences_app. unfold occurrences at 2. cbn [count_occ].
      destruct (N.eq_dec o o); [lia | congruence]. }
  destruct (Hhit ci li Hli Hqi) as [Hqi' Hci].
  destruct (Hhit cj lj Hlj Hqj) as [Hqj' Hcj].
  assert (Hi' : nth_error (children_nodes (insert mem t o)) i = Some (Leaf li))
    by (rewrite Hch, nth_error_map, Hi; cbn [option_map];
        now rewrite Hoi, Hli).
  assert (Hj' : nth_error (children_nodes (insert mem t o)) j = Some (Leaf lj))
    by (rewrite Hch, nth_error_map, Hj; cbn [option_map];
        now rewrite Hoj, Hlj).
  assert (Hr : retrieve mem (insert mem t o) acc q
               = fold_left (visit mem q) (children_nodes (insert mem t o)) acc)
    by reflexivity.
  rewrite Hr.
  destruct (Nat.lt_ge_cases i j) as [Hlt | Hge].
  - pose proof (count_fold_visit_two mem o q _ i j _ _ acc Hlt Hi' Hj'
                  Hqi' Hqj'). lia.
  - assert (Hlt : (j < i)%nat) by lia.
    pose proof (count_fold_visit_two mem o q _ j i _ _ acc Hlt Hj' Hi'
                  Hqj' Hqi'). lia.
Qed.

(** With room for two objects per node the two top quadrants stay leaves
    when the straddling object is inserted, and the query gets it twice. *)
Lemma duplicate_tolerance_witness :
  (2 <= occurrences 3%N
          (retrieve roomy_mem
             (insert_all roomy_mem roomy_tree [0; 1; 2; 3]%N) [] 4%N))%nat.
Proof.
  exact (duplicate_tolerance roomy_mem
           (mkNode [] (Vec2.mk 0 0) (Vec2.mk 100 100) 2 0 4)
           (Leaf (mkNode [] (Vec2.mk 50 0) (Vec2.mk 100 50) 2 1 4))
           (Leaf (mkNode [] (Vec2.mk 0 0) (Vec2.mk 50 50) 2 1 4))
           (Leaf (mkNode [1%N] (Vec2.mk 0 50) (Vec2.mk 50 100) 2 1 4))
           (Leaf (mkNode [2%N; 0%N] (Vec2.mk 50 50) (Vec2.mk 100 100) 2 1 4))
           3%N 4%N [] 0%nat 1%nat
           (Leaf (mkNode [] (Vec2.mk 50 0) (Vec2.mk 100 50) 2 1 4))
           (Leaf (mkNode [] (Vec2.mk 0 0) (Vec2.mk 50 50) 2 1 4))
           (mkNode [3%N] (Vec2.mk 50 0) (Vec2.mk 100 50) 2 1 4)
           (mkNode [3%N] (Vec2.mk 0 0) (Vec2.mk 50 50) 2 1 4)
           ltac:(discriminate) eq_refl eq_refl eq_refl eq_refl
           eq_refl eq_refl eq_refl eq_refl).
Defined.

(** C8 as stated fails when one of the two quadrants is subdivided.  In the
    scenario the top-left quadrant holds A; the straddling object makes it
    split and is stored in two of its children, sibling leaves, and in the
    top-right quadrant.  The query overlaps both top quadrants but, inside
    the top-left one, only a child that does not hold the object: it gets the
    object once, from the top-right quadrant. *)
Lemma duplicate_tolerance_counterexample :
  let t := insert_all straddle_mem demo_tree [0; 1]%N in
  let t' := insert straddle_mem t 2%N in
  is_leaf t = false
  /\ map (fun c => is_inside straddle_mem c 2%N) (children_nodes t)
     = [true; true; false; false]
  /\ map (fun c => is_inside straddle_mem c 3%N) (children_nodes t)
     = [true; true; false; false]
  /\ map (fun c => (is_leaf c, node_objects (node c))) (children_nodes t')
     = [(true, [2%N]); (false, []); (true, []); (true, [1%N])]
  /\ map (fun c => (is_leaf c, node_objects (node c)))
       (flat_map children_nodes (children_nodes t'))
     = [(true, [2%N]); (true, [2%N; 0%N]); (true, []); (true, [])]
  /\ retrieve straddle_mem t' [] 3%N = [2%N]
  /\ ~ (2 <= occurrences 2%N (retrieve straddle_mem t' [] 3%N))%nat.
Proof.
  cbv zeta. do 6 (split; [vm_compute; reflexivity |]).
  vm_compute. lia.
Qed.

(** ** Objects outside the bounds *)

Lemma leaves_insert_overflow {T : Type} {shape : Shape T} (mem : ptr -> T)
    (n : Node) (o : ptr) :
  should_split (with_objects n (node_objects n ++ [o])) = true ->
  leaves (insert mem (Leaf n) o)
  = map (fun q => Leaf (with_objects (node q)
                          (filter (is_inside mem q)
                             (rev (node_objects n ++ [o])))))
      (quadrants n).
Proof.
  intros H. pose proof (children_insert_overflow mem n o H) as Hc.
  destruct (insert_leaf_overflow mem n o H) as (k0 & k1 & k2 & k3 & Heq & _).
  rewrite Heq in *. cbn [children_nodes] in Hc.
  unfold quadrants in *. destruct (split n) as [[[q0 q1] q2] q3].
  cbn [map] in *. injection Hc as -> -> -> ->. reflexivity.
Qed.

(** C10.  A leaf that does not split on the insertion keeps the reference
    whatever the position of the object, also outside the bounds of the leaf,
    and every [retrieve] that reaches the leaf returns it.  An internal node
    none of whose children overlaps the object is left unchanged by [insert].
    And when a leaf splits, an object it holds that overlaps none of the four
    quadrants is in no leaf afterwards and no [retrieve] returns it. *)
Theorem out_of_bounds_handling {T : Type} {shape : Shape T} (mem : ptr -> T)
    (n : Node) (c0 c1 c2 c3 : QuadTree) (object p q : ptr)
    (acc : list ptr) :
  let n' := with_objects n (node_objects n ++ [object]) in
  (should_split n' = false ->
   insert mem (Leaf n) object = Leaf n'
   /\ retrieve mem (insert mem (Leaf n) object) acc q
      = acc ++ node_objects n ++ [object])
  /\ (is_inside mem c0 object = false -> is_inside mem c1 object = false ->
      is_inside mem c2 object = false -> is_inside mem c3 object = false ->
      insert mem (Internal n c0 c1 c2 c3) object = Internal n c0 c1 c2 c3)
  /\ (should_split n' = true ->
      In p (node_objects n') ->
      (forall c, In c (quadrants n) -> is_inside mem c p = false) ->
      (forall l, In l (leaves (insert mem (Leaf n) object)) ->
         ~ In p (node_objects (node l)))
      /\ (~ In p acc ->
          ~ In p (retrieve mem (insert mem (Leaf n) object) acc q))).
Proof.
  intros n'. split; [| split].
  - intros H. rewrite (insert_leaf_fits mem n object H).
    split; [reflexivity |].
    cbn [retrieve]. now rewrite push_all_app.
  - intros H0 H1 H2 H3. cbn [insert]. now rewrite H0, H1, H2, H3.
  - intros H _ Hout.
    assert (Hnone : forall l, In l (leaves (insert mem (Leaf n) object)) ->
                    ~ In p (node_objects (node l))).
    { intros l Hl. rewrite (leaves_insert_overflow mem n object H) in Hl.
      apply in_map_iff in Hl. destruct Hl as (c & <- & Hc).
      cbn [node with_objects node_objects]. intros Hp.
      apply filter_In in Hp. destruct Hp as [_ Hp].
      rewrite (Hout c Hc) in Hp. discriminate. }
    split; [exact Hnone |].
    intros Hacc Hp. apply retrieve_only_stored in Hp.
    destruct Hp as [Hp | (l & Hl & Hp)]; [now apply Hacc |].
    now apply (Hnone l Hl).
Qed.

(** The stray object is kept by the root while the root is a leaf, ignored
    by the split root of the scenario, and lost when it is the insertion that
    splits the root. *)
Lemma out_of_bounds_handling_witness :
  is_inside stray_mem demo_tree stray = false
  /\ retrieve stray_mem (insert stray_mem demo_tree stray) [] query_small
     = [stray]
  /\ insert stray_mem (insert_all stray_mem demo_tree [obj_A; obj_B]) stray
     = insert_all stray_mem demo_tree [obj_A; obj_B]
  /\ ~ In stray
         (retrieve stray_mem (insert_all stray_mem demo_tree [obj_A; stray])
            [] query_all).
Proof.
  split; [reflexivity | split; [| split]].
  - apply (out_of_bounds_handling stray_mem (node demo_tree)
             demo_tree demo_tree demo_tree demo_tree stray stray query_small
             []).
    reflexivity.
  - apply (out_of_bounds_handling stray_mem
             (mkNode [] (Vec2.mk 0 0) (Vec2.mk 100 100) 1 0 4)
             (Leaf (mkNode [] (Vec2.mk 50 0) (Vec2.mk 100 50) 1 1 4))
             (Leaf (mkNode [obj_A] (Vec2.mk 0 0) (Vec2.mk 50 50) 1 1 4))
             (Leaf (mkNode [] (Vec2.mk 0 50) (Vec2.mk 50 100) 1 1 4))
             (Leaf (mkNode [obj_B] (Vec2.mk 50 50) (Vec2.mk 100 100) 1 1 4))
             stray stray query_all []); reflexivity.
  - apply (out_of_bounds_handling stray_mem
             (node (insert stray_mem demo_tree obj_A))
             demo_tree demo_tree demo_tree demo_tree stray stray query_all
             []).
    + reflexivity.
    + right. left. reflexivity.
    + intros c [<- | [<- | [<- | [<- | []]]]]; reflexivity.
    + intros [].
Defined.

(** * Further properties of the operations *)

(** ** The strict classifier [getIndex] *)

Section ClassifierFacts.

Context {T : Type} {shape : Shape T}.
Variable mem : ptr -> T.

Lemma is_inside_true_iff (t : QuadTree) (object : ptr) :
  is_inside mem t object = true <->
  Vec2.x (top_left (node t))
    <= Vec2.x (getPosition (mem object)) + Vec2.x (getSize (mem object))
  /\ Vec2.x (getPosition (mem object)) <= Vec2.x (bottom_right (node t))
  /\ Vec2.y (top_left (node t))
       <= Vec2.y (getPosition (mem object)) + Vec2.y (getSize (mem object))
  /\ Vec2.y (getPosition (mem object)) <= Vec2.y (bottom_right (node t)).
Proof.
  unfold is_inside.
  rewrite !andb_true_iff, !Z.geb_le, !Z.leb_le. tauto.
Qed.

Lemma is_inside_false_iff (t : QuadTree) (object : ptr) :
  is_inside mem t object = false <->
  Vec2.x (getPosition (mem object)) + Vec2.x (getSize (mem object))
    < Vec2.x (top_left (node t))
  \/ Vec2.x (bottom_right (node t)) < Vec2.x (getPosition (mem object))
  \/ Vec2.y (getPosition (mem object)) + Vec2.y (getSize (mem object))
       < Vec2.y (top_left (node t))
  \/ Vec2.y (bottom_right (node t)) < Vec2.y (getPosition (mem object)).
Proof.
  rewrite <- not_true_iff_false, is_inside_true_iff. lia.
Qed.

(** The cases of [getIndex], with the comparisons as propositions. *)
Lemma getIndex_cases (t : QuadTree) (object : ptr) :
  let px := Vec2.x (getPosition (mem object)) in
  let py := Vec2.y (getPosition (mem object)) in
  let w := Vec2.x (getSize (mem object)) in
  let h := Vec2.y (getSize (mem object)) in
  let vm := Vec2.x (top_left (node t))
            + (Vec2.x (bottom_right (node t)) - Vec2.x (top_left (node t))) ÷ 2 in
  let hm := Vec2.y (top_left (node t))
            + (Vec2.y (bottom_right (node t)) - Vec2.y (top_left (node t))) ÷ 2 in
  (getIndex mem t object = 1 /\ px < vm /\ px + w < vm /\ py < hm /\ py + h < hm)
  \/ (getIndex mem t object = 2 /\ px < vm /\ px + w < vm /\ hm < py)
  \/ (getIndex mem t object = 0 /\ vm < px /\ py < hm /\ py + h < hm)
  \/ (getIndex mem t object = 3 /\ vm < px /\ hm < py)
  \/ (getIndex mem t object = -1
      /\ ((px < vm /\ px + w < vm) \/ vm < px ->
          ~ (py < hm /\ py + h < hm) /\ ~ hm < py)).
Proof.
  intros px py w h vm hm. unfold getIndex.
  fold px py w h. fold vm hm.
  rewrite !Z.gtb_ltb.
  destruct (Z.ltb_spec px vm), (Z.ltb_spec (px + w) vm), (Z.ltb_spec vm px),
    (Z.ltb_spec py hm), (Z.ltb_spec (py + h) hm), (Z.ltb_spec hm py);
    cbn [andb]; lia.
Qed.

Lemma quadrants_bounds (n : Node) (j : nat) (qj : QuadTree) :
  let l := Vec2.x (top_left n) in
  let t := Vec2.y (top_left n) in
  let r := Vec2.x (bottom_right n) in
  let b := Vec2.y (bottom_right n) in
  let vm := l + (r - l) ÷ 2 in
  let hm := t + (b - t) ÷ 2 in
  nth_error (quadrants n) j = Some qj ->
  (j = 0%nat /\ top_left (node qj) = Vec2.mk vm t
   /\ bottom_right (node qj) = Vec2.mk r hm)
  \/ (j = 1%nat /\ top_left (node qj) = Vec2.mk l t
      /\ bottom_right (node qj) = Vec2.mk vm hm)
  \/ (j = 2%nat /\ top_left (node qj) = Vec2.mk l hm
      /\ bottom_right (node qj) = Vec2.mk vm b)
  \/ (j = 3%nat /\ top_left (node qj) = Vec2.mk vm hm
      /\ bottom_right (node qj) = Vec2.mk r b).
Proof.
  intros l t r b vm hm. unfold quadrants, split, QuadTree_new.
  destruct j as [|[|[|[|j]]]]; cbn [nth_error];
    try (destruct j; discriminate); intros [= <-];
    cbn [node top_left bottom_right]; tauto.
Qed.

End ClassifierFacts.

(** X1.  [getIndex] is strict: when it names a quarter, none of the other three
    children [split] creates overlaps the object, so that the redistribution
    of [insert] stores the object in at most that child.  The index is one of
    0, 1, 2, 3. *)
Theorem getIndex_excludes_other_quadrants {T : Type} {shape : Shape T}
    (mem : ptr -> T) (t : QuadTree) (object : ptr) (i : Z)
    (j : nat) (qj : QuadTree) :
  getIndex mem t object = i -> i <> -1 ->
  0 <= i < 4
  /\ (nth_error (quadrants (node t)) j = Some qj -> Z.of_nat j <> i ->
      is_inside mem qj object = false
      /\ offer mem qj object = qj).
Proof.
  intros Hi Hne.
  pose proof (getIndex_cases mem t object) as Hc. cbv zeta in Hc.
  rewrite Hi in Hc.
  split; [lia |].
  intros Hq Hj.
  assert (Hout : is_inside mem qj object = false).
  { apply is_inside_false_iff.
    pose proof (quadrants_bounds (node t) j qj Hq) as Hb. cbv zeta in Hb.
    destruct Hb as [(-> & -> & ->) | [(-> & -> & ->) | [(-> & -> & ->)
                   | (-> & -> & ->)]]];
      cbn [Vec2.x Vec2.y]; cbn in Hj; lia. }
  split; [exact Hout |]. unfold offer. now rewrite Hout.
Qed.

(** In the region of the scenario, A lies in quarter 1 and overlaps neither
    the top-right nor the bottom ones. *)
Lemma getIndex_excludes_other_quadrants_witness :
  is_inside demo_mem
    (QuadTree_new 1 (Vec2.mk 50 50) (Vec2.mk 100 100) 1 4) obj_A = false.
Proof.
  apply (getIndex_excludes_other_quadrants demo_mem demo_tree obj_A 1 3
           (QuadTree_new 1 (Vec2.mk 50 50) (Vec2.mk 100 100) 1 4)).
  - reflexivity.
  - discriminate.
  - reflexivity.
  - discriminate.
Defined.

(** X2.  When [getIndex] names a quarter for an object of non-negative size that
    overlaps the bounds of the node, the child [split] creates at that index
    overlaps the object: the redistribution of [insert] stores the object
    there. *)
Theorem getIndex_names_overlapping_quadrant {T : Type} {shape : Shape T}
    (mem : ptr -> T) (t : QuadTree) (object : ptr) (i : Z) :
  getIndex mem t object = i -> i <> -1 ->
  is_inside mem t object = true -> well_sized mem object ->
  exists qi,
    nth_error (quadrants (node t)) (Z.to_nat i) = Some qi
    /\ is_inside mem qi object = true
    /\ offer mem qi object = push_object qi object.
Proof.
  intros Hi Hne Hin [Hw Hh].
  pose proof (getIndex_cases mem t object) as Hc. cbv zeta in Hc.
  rewrite Hi in Hc. apply is_inside_true_iff in Hin.
  assert (Hex : exists qi, nth_error (quadrants (node t)) (Z.to_nat i)
                           = Some qi).
  { assert (Hlen : length (quadrants (node t)) = 4%nat) by reflexivity.
    destruct (nth_error (quadrants (node t)) (Z.to_nat i)) eqn:E;
      [now eexists |].
    apply nth_error_None in E. lia. }
  destruct Hex as [qi Hq]. exists qi. split; [exact Hq |].
  assert (Hqin : is_inside mem qi object = true).
  { apply is_inside_true_iff.
    pose proof (quadrants_bounds (node t) _ qi Hq) as Hb. cbv zeta in Hb.
    destruct Hb as [(Hj & -> & ->) | [(Hj & -> & ->) | [(Hj & -> & ->)
                   | (Hj & -> & ->)]]];
      cbn [Vec2.x Vec2.y]; lia. }
  split; [exact Hqin |]. unfold offer. now rewrite Hqin.
Qed.

Lemma getIndex_names_overlapping_quadrant_witness :
  exists qi,
    nth_error (quadrants (node demo_tree)) 3 = Some qi
    /\ is_inside demo_mem qi obj_B = true
    /\ offer demo_mem qi obj_B = push_object qi obj_B.
Proof.
  apply (getIndex_names_overlapping_quadrant demo_mem demo_tree obj_B 3).
  - reflexivity.
  - discriminate.
  - reflexivity.
  - split; vm_compute; discriminate.
Defined.

(** X3.  An object that touches or crosses one of the two midlines of the node is
    in no quarter for [getIndex], even when it lies within one half: lying
    on a midline with its left or top edge, or reaching it with its right or
    bottom edge, is enough. *)
Theorem getIndex_on_midline {T : Type} {shape : Shape T}
    (mem : ptr -> T) (t : QuadTree) (object : ptr) :
  let px := Vec2.x (getPosition (mem object)) in
  let py := Vec2.y (getPosition (mem object)) in
  let w := Vec2.x (getSize (mem object)) in
  let h := Vec2.y (getSize (mem object)) in
  let vm := Vec2.x (top_left (node t))
            + (Vec2.x (bottom_right (node t)) - Vec2.x (top_left (node t))) ÷ 2 in
  let hm := Vec2.y (top_left (node t))
            + (Vec2.y (bottom_right (node t)) - Vec2.y (top_left (node t))) ÷ 2 in
  px <= vm <= px + w \/ py <= hm <= py + h ->
  getIndex mem t object = -1.
Proof.
  intros px py w h vm hm H.
  pose proof (getIndex_cases mem t object) as Hc. cbv zeta in Hc.
  fold px py w h in Hc. fold vm hm in Hc. lia.
Qed.

(** An object whose left edge lies on the vertical midline x = 50 of the
    region of the scenario, within the right half. *)
Lemma getIndex_on_midline_witness :
  getIndex (storage [rect 50 10 5 5]) demo_tree 0%N = -1.
Proof.
  apply (getIndex_on_midline (storage [rect 50 10 5 5]) demo_tree 0%N).
  left. vm_compute. split; discriminate.
Defined.

(** ** The shape of every node of a tree *)

Lemma split_shaped_subtree (t s : QuadTree) :
  split_shaped t -> In s (subtrees t) -> split_shaped s.
Proof.
  induction t as [n | n c0 IH0 c1 IH1 c2 IH2 c3 IH3]; intros Hs Hin.
  - destruct Hin as [<- | []]. exact Hs.
  - cbn [subtrees] in Hin. destruct Hin as [<- | Hin]; [exact Hs |].
    destruct Hs as (_ & _ & _ & H0 & H1 & H2 & H3).
    rewrite !in_app_iff in Hin.
    destruct Hin as [Hin | [Hin | [Hin | Hin]]]; auto.
Qed.

Lemma limits_subtree (t s : QuadTree) :
  split_shaped t ->
  (max_objects (node t) < 2 ^ 32)%N -> (max_level (node t) < 2 ^ 32)%N ->
  In s (subtrees t) ->
  max_objects (node s) = max_objects (node t)
  /\ max_level (node s) = max_level (node t).
Proof.
  induction t as [n | n c0 IH0 c1 IH1 c2 IH2 c3 IH3]; intros Hs Hmo Hml Hin.
  - destruct Hin as [<- | []]. now split.
  - cbn [subtrees] in Hin. destruct Hin as [<- | Hin]; [now split |].
    destruct Hs as (_ & _ & Hframes & H0 & H1 & H2 & H3). cbn [node] in *.
    assert (Hc : forall c, In c [c0; c1; c2; c3] ->
                 max_objects (node c) = max_objects n
                 /\ max_level (node c) = max_level n).
    { intros c Hc.
      destruct (shaped_child _ _ _ _ _ _ Hframes Hc) as (q & Hq & Hf).
      apply frame_fields in Hf. destruct Hf as (_ & _ & -> & _ & ->).
      destruct (quadrant_limits _ _ Hq) as (_ & -> & ->).
      now rewrite !uint32_small. }
    destruct (Hc c0 ltac:(simpl; tauto)) as [A0 B0].
    destruct (Hc c1 ltac:(simpl; tauto)) as [A1 B1].
    destruct (Hc c2 ltac:(simpl; tauto)) as [A2 B2].
    destruct (Hc c3 ltac:(simpl; tauto)) as [A3 B3].
    rewrite !in_app_iff in Hin.
    destruct Hin as [Hin | [Hin | [Hin | Hin]]].
    + rewrite <- A0, <- B0. apply IH0; auto; congruence.
    + rewrite <- A1, <- B1. apply IH1; auto; congruence.
    + rewrite <- A2, <- B2. apply IH2; auto; congruence.
    + rewrite <- A3, <- B3. apply IH3; auto; congruence.
Qed.

Lemma bounds_subtree (t s : QuadTree) :
  split_shaped t -> ordered (node t) ->
  In s (subtrees t) ->
  ordered (node s)
  /\ Vec2.x (top_left (node t)) <= Vec2.x (top_left (node s))
  /\ Vec2.x (bottom_right (node s)) <= Vec2.x (bottom_right (node t))
  /\ Vec2.y (top_left (node t)) <= Vec2.y (top_left (node s))
  /\ Vec2.y (bottom_right (node s)) <= Vec2.y (bottom_right (node t)).
Proof.
  induction t as [n | n c0 IH0 c1 IH1 c2 IH2 c3 IH3]; intros Hs Ho Hin.
  - destruct Hin as [<- | []]. repeat split; (apply Ho || apply Z.le_refl).
  - cbn [subtrees] in Hin.
    destruct Hin as [<- | Hin];
      [repeat split; (apply Ho || apply Z.le_refl) |].
    pose proof Hs as (_ & _ & Hframes & H0 & H1 & H2 & H3). cbn [node] in *.
    assert (Hc : forall c, In c [c0; c1; c2; c3] ->
                 ordered (node c)
                 /\ Vec2.x (top_left n) <= Vec2.x (top_left (node c))
                 /\ Vec2.x (bottom_right (node c)) <= Vec2.x (bottom_right n)
                 /\ Vec2.y (top_left n) <= Vec2.y (top_left (node c))
                 /\ Vec2.y (bottom_right (node c)) <= Vec2.y (bottom_right n)).
    { intros c Hc.
      destruct (shaped_child _ _ _ _ _ _ Hframes Hc) as (q & Hq & Hf).
      apply frame_fields in Hf. destruct Hf as (Htl & Hbr & _).
      unfold ordered. rewrite Htl, Hbr.
      exact (quadrant_bounds _ _ Ho Hq). }
    rewrite !in_app_iff in Hin.
    destruct Hin as [Hin | [Hin | [Hin | Hin]]].
    + destruct (Hc c0 ltac:(simpl; tauto)) as (Oc & ? & ? & ? & ?).
      destruct (IH0 H0 Oc Hin) as (Os & ? & ? & ? & ?).
      split; [exact Os | lia].
    + destruct (Hc c1 ltac:(simpl; tauto)) as (Oc & ? & ? & ? & ?).
      destruct (IH1 H1 Oc Hin) as (Os & ? & ? & ? & ?).
      split; [exact Os | lia].
    + destruct (Hc c2 ltac:(simpl; tauto)) as (Oc & ? & ? & ? & ?).
      destruct (IH2 H2 Oc Hin) as (Os & ? & ? & ? & ?).
      split; [exact Os | lia].
    + destruct (Hc c3 ltac:(simpl; tauto)) as (Oc & ? & ? & ? & ?).
      destruct (IH3 H3 Oc Hin) as (Os & ? & ? & ? & ?).
      split; [exact Os | lia].
Qed.

Lemma run_invariants {T : Type} {shape : Shape T} (mem : ptr -> T)
    (pLevel : N) (tl br : Bound) (max_objs max_lvl : N) (ops : list Op) :
  let t := run mem (QuadTree_new pLevel tl br max_objs max_lvl) ops in
  split_shaped t
  /\ top_left (node t) = tl /\ bottom_right (node t) = br
  /\ max_objects (node t) = uint32 max_objs
  /\ level (node t) = uint32 pLevel
  /\ max_level (node t) = uint32 max_lvl.
Proof.
  intros t. split; [apply split_shaped_run; exact I |].
  assert (Hf : frame (node t)
               = frame (node (QuadTree_new pLevel tl br max_objs max_lvl)))
    by apply frame_run.
  apply frame_fields in Hf. exact Hf.
Qed.

(** X4.  Whatever is inserted, retrieved or cleared, every node of the tree keeps
    the limits the root was constructed with, and every node that has
    children holds no object itself, lies above [max_level], and has for
    children four nodes with the bounds, level and limits [split] gives the
    quarters of its bounds. *)
Theorem every_node_is_split_shaped {T : Type} {shape : Shape T}
    (mem : ptr -> T) (pLevel : N) (tl br : Bound) (max_objs max_lvl : N)
    (ops : list Op) (s : QuadTree) :
  In s (subtrees (run mem (QuadTree_new pLevel tl br max_objs max_lvl) ops)) ->
  max_objects (node s) = uint32 max_objs
  /\ max_level (node s) = uint32 max_lvl
  /\ (is_leaf s = false ->
      node_objects (node s) = []
      /\ (level (node s) < max_level (node s))%N
      /\ map (fun c => frame (node c)) (children_nodes s)
         = map (fun c => frame (node c)) (quadrants (node s))).
Proof.
  intros Hin.
  destruct (run_invariants mem pLevel tl br max_objs max_lvl ops)
    as (Hs & _ & _ & Hmo & _ & Hml).
  destruct (limits_subtree _ s Hs) as [A B];
    [rewrite Hmo; apply uint32_lt | rewrite Hml; apply uint32_lt | exact Hin |].
  split; [congruence | split; [congruence |]].
  pose proof (split_shaped_subtree _ s Hs Hin) as Hss.
  destruct s as [n | n c0 c1 c2 c3]; [discriminate |]. intros _.
  destruct Hss as (Hnil & Hlt & Hframes & _).
  split; [exact Hnil | split; [exact Hlt |]].
  cbn [children_nodes node map]. unfold quadrants. rewrite <- Hframes.
  reflexivity.
Qed.

(** The top-left child of the split root of the scenario: one of its nodes,
    with the limits the tree was constructed with. *)
Lemma every_node_is_split_shaped_witness :
  max_objects (mkNode [obj_A] (Vec2.mk 0 0) (Vec2.mk 50 50) 1 1 4) = 1%N
  /\ max_level (mkNode [obj_A] (Vec2.mk 0 0) (Vec2.mk 50 50) 1 1 4) = 4%N.
Proof.
  destruct (every_node_is_split_shaped demo_mem 0 (Vec2.mk 0 0)
              (Vec2.mk 100 100) 1 4 [OpInsert obj_A; OpInsert obj_B]
              (Leaf (mkNode [obj_A] (Vec2.mk 0 0) (Vec2.mk 50 50) 1 1 4)))
    as (A & B & _).
  - vm_compute. right. right. left. reflexivity.
  - split; [exact A | exact B].
Defined.

(** X5.  In a tree whose root has its top-left corner not beyond its bottom-right
    one, every node has such bounds too and they lie within the bounds of the
    root: the tree never indexes a region outside the one it was given. *)
Theorem every_node_within_root {T : Type} {shape : Shape T}
    (mem : ptr -> T) (pLevel : N) (tl br : Bound) (max_objs max_lvl : N)
    (ops : list Op) (s : QuadTree) :
  Vec2.x tl <= Vec2.x br -> Vec2.y tl <= Vec2.y br ->
  In s (subtrees (run mem (QuadTree_new pLevel tl br max_objs max_lvl) ops)) ->
  Vec2.x tl <= Vec2.x (top_left (node s))
  /\ Vec2.x (top_left (node s)) <= Vec2.x (bottom_right (node s))
  /\ Vec2.x (bottom_right (node s)) <= Vec2.x br
  /\ Vec2.y tl <= Vec2.y (top_left (node s))
  /\ Vec2.y (top_left (node s)) <= Vec2.y (bottom_right (node s))
  /\ Vec2.y (bottom_right (node s)) <= Vec2.y br.
Proof.
  intros Hx Hy Hin.
  destruct (run_invariants mem pLevel tl br max_objs max_lvl ops)
    as (Hs & Htl & Hbr & _).
  destruct (bounds_subtree _ s Hs) as ([Ox Oy] & B);
    [unfold ordered; rewrite Htl, Hbr; now split | exact Hin |].
  rewrite Htl, Hbr in B. tauto.
Qed.

Lemma every_node_within_root_witness :
  0 <= 50 /\ 50 <= 100 /\ 100 <= 100 /\ 0 <= 50 /\ 50 <= 100 /\ 100 <= 100.
Proof.
  apply (every_node_within_root demo_mem 0 (Vec2.mk 0 0) (Vec2.mk 100 100)
           1 4 [OpInsert obj_A; OpInsert obj_B]
           (Leaf (mkNode [obj_B] (Vec2.mk 50 50) (Vec2.mk 100 100) 1 1 4))).
  - vm_compute. discriminate.
  - vm_compute. discriminate.
  - vm_compute. do 4 right. left. reflexivity.
Defined.

(** ** The number of leaves *)

Lemma leaves_bound (m : N) (t : QuadTree) :
  depth_ok m t = true ->
  (N.of_nat (length (leaves t)) <= 4 ^ (m - level (node t)))%N.
Proof.
  induction t as [n | n c0 IH0 c1 IH1 c2 IH2 c3 IH3]; intros H.
  - cbn [leaves length node].
    pose proof (N.pow_nonzero 4 (m - level n) ltac:(discriminate)). lia.
  - cbn [depth_ok node forallb] in H.
    rewrite !andb_true_iff, !N.eqb_eq, N.leb_le in H.
    destruct H as (Hn & ((((L0 & L1 & L2 & L3 & _) & D0) & D1) & D2) & D3).
    specialize (IH0 D0). specialize (IH1 D1).
    specialize (IH2 D2). specialize (IH3 D3).
    rewrite L0 in IH0. rewrite L1 in IH1. rewrite L2 in IH2. rewrite L3 in IH3.
    assert (Hc0 : (level (node c0) <= m)%N).
    { destruct c0; cbn [depth_ok] in D0;
        rewrite andb_true_iff, N.leb_le in D0; tauto. }
    rewrite L0 in Hc0. cbn [node leaves].
    replace (m - level n)%N with (N.succ (m - (level n + 1)))%N by lia.
    rewrite N.pow_succ_r', !length_app, !Nat2N.inj_add. lia.
Qed.

(** X6.  A tree whose root was constructed at a level up to [max_level] never has
    more than [4 ^ (max_level - level)] leaves, whatever is inserted. *)
Theorem leaves_at_most_power_of_four {T : Type} {shape : Shape T}
    (mem : ptr -> T) (pLevel : N) (tl br : Bound) (max_objs max_lvl : N)
    (ops : list Op) :
  (uint32 pLevel <= uint32 max_lvl)%N ->
  (N.of_nat (length (leaves
      (run mem (QuadTree_new pLevel tl br max_objs max_lvl) ops)))
   <= 4 ^ (uint32 max_lvl - uint32 pLevel))%N.
Proof.
  intros H.
  pose proof (depth_ok_run mem pLevel tl br max_objs max_lvl ops H) as Hd.
  apply leaves_bound in Hd.
  destruct (run_invariants mem pLevel tl br max_objs max_lvl ops)
    as (_ & _ & _ & _ & Hl & _).
  now rewrite Hl in Hd.
Qed.

(** The scenario: at most 4^4 leaves, four of them there after the split. *)
Lemma leaves_at_most_power_of_four_witness :
  (N.of_nat (length (leaves
      (run demo_mem demo_tree [OpInsert obj_A; OpInsert obj_B])))
   <= 256)%N.
Proof.
  apply (leaves_at_most_power_of_four demo_mem 0 (Vec2.mk 0 0)
           (Vec2.mk 100 100) 1 4 [OpInsert obj_A; OpInsert obj_B]).
  vm_compute. discriminate.
Defined.

(** ** What [retrieve] returns, exactly *)

Section Candidates.

Context {T : Type} {shape : Shape T}.
Variable mem : ptr -> T.

Lemma candidates_internal (n : Node) (c0 c1 c2 c3 : QuadTree) (q : ptr) :
  candidates mem (Internal n c0 c1 c2 c3) q
  = candidates mem c0 q ++ candidates mem c1 q
    ++ candidates mem c2 q ++ candidates mem c3 q.
Proof.
  unfold candidates. cbn [leaves].
  now rewrite !filter_app, !flat_map_app.
Qed.

Lemma candidates_outside (t : QuadTree) (q : ptr) :
  split_shaped t -> ordered (node t) ->
  is_inside mem t q = false -> candidates mem t q = [].
Proof.
  intros Hs Ho Hq. unfold candidates.
  assert (Hnone : forall l, In l (leaves t) -> is_inside mem l q = false).
  { intros l Hin. destruct (is_inside mem l q) eqn:E; [| reflexivity].
    rewrite (leaf_inside_root mem t l q Hs Ho Hin E) in Hq. discriminate. }
  induction (leaves t) as [|a ls IH]; [reflexivity |].
  cbn [filter]. rewrite (Hnone a) by (simpl; tauto).
  apply IH. intros l Hl. apply Hnone. simpl; tauto.
Qed.

Lemma retrieve_exact (t : QuadTree) (q : ptr) (acc : list ptr) :
  split_shaped t -> ordered (node t) ->
  is_leaf t = false \/ is_inside mem t q = true ->
  retrieve mem t acc q = acc ++ candidates mem t q.
Proof.
  revert acc.
  induction t as [n | n c0 IH0 c1 IH1 c2 IH2 c3 IH3]; intros acc Hs Ho Hq.
  - destruct Hq as [Hq | Hq]; [discriminate |].
    cbn [retrieve]. rewrite push_all_app. unfold candidates.
    cbn [leaves filter]. rewrite Hq. cbn [flat_map node].
    now rewrite app_nil_r.
  - assert (Hv : forall c v, In c [c0; c1; c2; c3] ->
             (forall acc, split_shaped c -> ordered (node c) ->
                is_leaf c = false \/ is_inside mem c q = true ->
                retrieve mem c acc q = acc ++ candidates mem c q) ->
             visit mem q v c = v ++ candidates mem c q).
    { intros c v Hin IH.
      destruct (shaped_children_ordered _ _ _ _ _ c Hs Ho Hin) as [Hsc Hoc].
      unfold visit. destruct (is_inside mem c q) eqn:E.
      - apply IH; auto.
      - rewrite (candidates_outside c q Hsc Hoc E). now rewrite app_nil_r. }
    rewrite retrieve_internal, candidates_internal. cbn [fold_left].
    rewrite (Hv c0 acc ltac:(simpl; tauto) IH0).
    rewrite (Hv c1 _ ltac:(simpl; tauto) IH1).
    rewrite (Hv c2 _ ltac:(simpl; tauto) IH2).
    rewrite (Hv c3 _ ltac:(simpl; tauto) IH3).
    now rewrite <- !app_assoc.
Qed.

End Candidates.

(** X7.  In a tree built from a root whose bounds are a rectangle, [retrieve]
    appends to the accumulator exactly the lists of the leaves whose bounds
    overlap the query, leaf after leaf in the order of the tree, and nothing
    of any other leaf; only a root that is a leaf is read without looking at
    its bounds. *)
Theorem retrieve_returns_candidates {T : Type} {shape : Shape T}
    (mem : ptr -> T) (pLevel : N) (tl br : Bound) (max_objs max_lvl : N)
    (ops : list Op) (q : ptr) (acc : list ptr) :
  Vec2.x tl <= Vec2.x br -> Vec2.y tl <= Vec2.y br ->
  let t := run mem (QuadTree_new pLevel tl br max_objs max_lvl) ops in
  (is_leaf t = true -> retrieve mem t acc q = acc ++ node_objects (node t))
  /\ (is_leaf t = false \/ is_inside mem t q = true ->
      retrieve mem t acc q = acc ++ candidates mem t q).
Proof.
  intros Hx Hy t.
  destruct (run_invariants mem pLevel tl br max_objs max_lvl ops)
    as (Hs & Htl & Hbr & _). fold t in Hs, Htl, Hbr.
  split.
  - destruct t; [| discriminate]. intros _.
    cbn [retrieve node]. apply push_all_app.
  - apply retrieve_exact; [exact Hs |].
    unfold ordered. rewrite Htl, Hbr. now split.
Qed.

(** In the split tree of the scenario the small query overlaps the top-left
    leaf only, and gets its list. *)
Lemma retrieve_returns_candidates_witness :
  retrieve demo_mem (run demo_mem demo_tree [OpInsert obj_A; OpInsert obj_B])
    [obj_B] query_small
  = [obj_B]
    ++ candidates demo_mem
         (run demo_mem demo_tree [OpInsert obj_A; OpInsert obj_B]) query_small.
Proof.
  apply (retrieve_returns_candidates demo_mem 0 (Vec2.mk 0 0)
           (Vec2.mk 100 100) 1 4 [OpInsert obj_A; OpInsert obj_B]
           query_small [obj_B]).
  - vm_compute. discriminate.
  - vm_compute. discriminate.
  - left. reflexivity.
Defined.

(** ** Only what was inserted is stored *)

Lemma occurrences_filter_le (o : ptr) (f : ptr -> bool) (v : list ptr) :
  (occurrences o (filter f v) <= occurrences o v)%nat.
Proof.
  unfold occurrences. induction v as [|a v IH]; [apply Nat.le_refl |].
  cbn [filter]. destruct (f a); cbn [count_occ]; destruct (N.eq_dec a o); lia.
Qed.

Lemma occurrences_rev (o : ptr) (v : list ptr) :
  occurrences o (rev v) = occurrences o v.
Proof.
  induction v as [|a v IH]; [reflexivity |].
  cbn [rev]. rewrite occurrences_app, IH.
  unfold occurrences. cbn [count_occ]. destruct (N.eq_dec a o); lia.
Qed.

Section Stored.

Context {T : Type} {shape : Shape T}.
Variable mem : ptr -> T.

(** One insertion adds at most one reference to each leaf, and only the one
    inserted. *)
Lemma leaves_insert_bound (t : QuadTree) (o o' : ptr) (k : nat) :
  (forall l, In l (leaves t) ->
     (occurrences o (node_objects (node l)) <= k)%nat) ->
  forall l, In l (leaves (insert mem t o')) ->
    (occurrences o (node_objects (node l)) <= k + occurrences o [o'])%nat.
Proof.
  induction t as [n | n c0 IH0 c1 IH1 c2 IH2 c3 IH3]; intros H l Hl.
  - specialize (H (Leaf n) ltac:(simpl; tauto)). cbn [node] in H.
    destruct (should_split (with_objects n (node_objects n ++ [o']))) eqn:Hs.
    + rewrite (leaves_insert_overflow mem n o' Hs) in Hl.
      apply in_map_iff in Hl. destruct Hl as (c & <- & _).
      cbn [node with_objects node_objects].
      pose proof (occurrences_filter_le o (is_inside mem c)
                    (rev (node_objects n ++ [o']))) as Hf.
      rewrite occurrences_rev, occurrences_app in Hf. lia.
    + rewrite (insert_leaf_fits mem n o' Hs) in Hl.
      destruct Hl as [<- | []]. cbn [node with_objects node_objects].
      rewrite occurrences_app. lia.
  - assert (Hc : forall c,
               (In c [c0; c1; c2; c3]) ->
               (forall l, In l (leaves c) ->
                  (occurrences o (node_objects (node l)) <= k)%nat)).
    { intros c Hc l' Hl'. apply H. cbn [leaves]. rewrite !in_app_iff.
      destruct Hc as [<- | [<- | [<- | [<- | []]]]]; tauto. }
    assert (Hstep : forall c,
               In c [c0; c1; c2; c3] ->
               ((forall l, In l (leaves c) ->
                   (occurrences o (node_objects (node l)) <= k)%nat) ->
                forall l, In l (leaves (insert mem c o')) ->
                  (occurrences o (node_objects (node l))
                   <= k + occurrences o [o'])%nat) ->
               In l (leaves (if is_inside mem c o' then insert mem c o'
                             else c)) ->
               (occurrences o (node_objects (node l))
                <= k + occurrences o [o'])%nat).
    { intros c Hin IH Hlc. destruct (is_inside mem c o').
      - apply IH; [apply Hc; exact Hin | exact Hlc].
      - pose proof (Hc c Hin l Hlc). lia. }
    cbn [insert leaves] in Hl. rewrite !in_app_iff in Hl.
    destruct Hl as [Hl | [Hl | [Hl | Hl]]].
    + apply (Hstep c0); [simpl; tauto | exact IH0 | exact Hl].
    + apply (Hstep c1); [simpl; tauto | exact IH1 | exact Hl].
    + apply (Hstep c2); [simpl; tauto | exact IH2 | exact Hl].
    + apply (Hstep c3); [simpl; tauto | exact IH3 | exact Hl].
Qed.

Lemma leaves_run_bound (ops : list Op) (t : QuadTree) (inserted : list ptr) :
  (forall o l, In l (leaves t) ->
     (occurrences o (node_objects (node l)) <= occurrences o inserted)%nat) ->
  forall o l, In l (leaves (run mem t ops)) ->
    (occurrences o (node_objects (node l))
     <= occurrences o (fold_left record_op ops inserted))%nat.
Proof.
  unfold run. revert t inserted.
  induction ops as [|op ops IH]; intros t inserted H; [exact H |].
  cbn [fold_left]. apply IH. intros o l Hl.
  destruct op as [o' | ? ? |]; cbn [step record_op] in *.
  - rewrite occurrences_app.
    apply (leaves_insert_bound t o o'); [intros; now apply H | exact Hl].
  - now apply H.
  - rewrite clear_spec in Hl. destruct Hl as [<- | []].
    apply Nat.le_0_l.
Qed.

End Stored.

(** X8.  No leaf holds a reference more often than it was inserted since the last
    [clear]: redistribution neither invents nor multiplies references within
    a leaf.  In particular, when every object is inserted once, no leaf holds
    an object twice. *)
Theorem stored_at_most_as_inserted {T : Type} {shape : Shape T}
    (mem : ptr -> T) (pLevel : N) (tl br : Bound) (max_objs max_lvl : N)
    (ops : list Op) (o : ptr) (l : QuadTree) :
  In l (leaves (run mem (QuadTree_new pLevel tl br max_objs max_lvl) ops)) ->
  (occurrences o (node_objects (node l)) <= occurrences o (live ops))%nat
  /\ (NoDup (live ops) -> NoDup (node_objects (node l))).
Proof.
  intros Hl.
  assert (Hb : forall o', (occurrences o' (node_objects (node l))
                           <= occurrences o' (live ops))%nat).
  { intros o'. unfold live.
    apply (leaves_run_bound mem ops
             (QuadTree_new pLevel tl br max_objs max_lvl) []); [| exact Hl].
    intros o'' l' [<- | []]. apply Nat.le_refl. }
  split; [apply Hb |].
  intros Hnd. apply (NoDup_count_occ N.eq_dec). intros x.
  apply (NoDup_count_occ N.eq_dec) with (x := x) in Hnd.
  specialize (Hb x). unfold occurrences in Hb. lia.
Qed.

Lemma stored_at_most_as_inserted_witness :
  (occurrences obj_A [obj_A] <= 1)%nat /\ NoDup [obj_A].
Proof.
  destruct (stored_at_most_as_inserted demo_mem 0 (Vec2.mk 0 0)
              (Vec2.mk 100 100) 1 4 [OpInsert obj_A; OpInsert obj_B] obj_A
              (Leaf (mkNode [obj_A] (Vec2.mk 0 0) (Vec2.mk 50 50) 1 1 4)))
    as [A B].
  - vm_compute. right. left. reflexivity.
  - split; [exact A |]. apply B.
    vm_compute. constructor; [| constructor; [| constructor]].
    + intros [H | []]. discriminate H.
    + intros [].
Defined.

(** X9.  Every reference in the result of [retrieve] is in the accumulator
    handed in or was inserted since the last [clear]: a reference that was
    never inserted, or only before the last [clear], is not returned. *)
Theorem retrieve_only_inserted {T : Type} {shape : Shape T}
    (mem : ptr -> T) (pLevel : N) (tl br : Bound) (max_objs max_lvl : N)
    (ops : list Op) (p q : ptr) (acc : list ptr) :
  In p (retrieve mem
          (run mem (QuadTree_new pLevel tl br max_objs max_lvl) ops) acc q) ->
  In p acc \/ In p (live ops).
Proof.
  intros H. apply retrieve_only_stored in H.
  destruct H as [H | (l & Hl & Hp)]; [now left | right].
  assert (Hb : (occurrences p (node_objects (node l))
                <= occurrences p (live ops))%nat).
  { unfold live.
    apply (leaves_run_bound mem ops
             (QuadTree_new pLevel tl br max_objs max_lvl) []); [| exact Hl].
    intros o' l' [<- | []]. apply Nat.le_refl. }
  apply occurrences_In. apply occurrences_In in Hp. lia.
Qed.

Lemma retrieve_only_inserted_witness :
  In obj_A [] \/ In obj_A (live [OpInsert obj_B; OpClear; OpInsert obj_A]).
Proof.
  apply (retrieve_only_inserted demo_mem 0 (Vec2.mk 0 0) (Vec2.mk 100 100)
           1 4 [OpInsert obj_B; OpClear; OpInsert obj_A] obj_A query_all []).
  vm_compute. left. reflexivity.
Defined.

(** ** Every overlapping object is a candidate *)

Lemma shaped_children_bounds (n : Node) (c0 c1 c2 c3 : QuadTree) :
  let l := Vec2.x (top_left n) in
  let t := Vec2.y (top_left n) in
  let r := Vec2.x (bottom_right n) in
  let b := Vec2.y (bottom_right n) in
  let vm := l + (r - l) ÷ 2 in
  let hm := t + (b - t) ÷ 2 in
  (Leaf (frame (node c0)), Leaf (frame (node c1)),
   Leaf (frame (node c2)), Leaf (frame (node c3))) = split n ->
  (top_left (node c0) = Vec2.mk vm t /\ bottom_right (node c0) = Vec2.mk r hm)
  /\ (top_left (node c1) = Vec2.mk l t
      /\ bottom_right (node c1) = Vec2.mk vm hm)
  /\ (top_left (node c2) = Vec2.mk l hm
      /\ bottom_right (node c2) = Vec2.mk vm b)
  /\ (top_left (node c3) = Vec2.mk vm hm
      /\ bottom_right (node c3) = Vec2.mk r b).
Proof.
  intros l t r b vm hm H. unfold split, QuadTree_new in H.
  injection H; intros. repeat split; assumption.
Qed.

Section Completeness.

Context {T : Type} {shape : Shape T}.
Variable mem : ptr -> T.

Lemma overlaps_true_iff (a b : ptr) :
  overlaps mem a b = true <->
  Vec2.x (getPosition (mem b))
    <= Vec2.x (getPosition (mem a)) + Vec2.x (getSize (mem a))
  /\ Vec2.x (getPosition (mem a))
     <= Vec2.x (getPosition (mem b)) + Vec2.x (getSize (mem b))
  /\ Vec2.y (getPosition (mem b))
     <= Vec2.y (getPosition (mem a)) + Vec2.y (getSize (mem a))
  /\ Vec2.y (getPosition (mem a))
     <= Vec2.y (getPosition (mem b)) + Vec2.y (getSize (mem b)).
Proof.
  unfold overlaps. rewrite !andb_true_iff, !Z.geb_le, !Z.leb_le. tauto.
Qed.

(** Two overlapping objects of non-negative size that both overlap a node
    with children both overlap one and the same child. *)
Lemma common_child (n : Node) (c0 c1 c2 c3 : QuadTree) (o q : ptr) :
  (Leaf (frame (node c0)), Leaf (frame (node c1)),
   Leaf (frame (node c2)), Leaf (frame (node c3))) = split n ->
  well_sized mem o -> well_sized mem q -> overlaps mem o q = true ->
  is_inside mem (Internal n c0 c1 c2 c3) o = true ->
  is_inside mem (Internal n c0 c1 c2 c3) q = true ->
  exists c, In c [c0; c1; c2; c3]
            /\ is_inside mem c o = true /\ is_inside mem c q = true.
Proof.
  intros Hframes [Wo Ho] [Wq Hq] Hov Hio Hiq.
  pose proof (shaped_children_bounds n c0 c1 c2 c3 Hframes) as Hb.
  cbv zeta in Hb.
  destruct Hb as ((T0 & B0) & (T1 & B1) & (T2 & B2) & (T3 & B3)).
  apply overlaps_true_iff in Hov.
  apply is_inside_true_iff in Hio, Hiq. cbn [node] in Hio, Hiq.
  set (vm := Vec2.x (top_left n)
             + (Vec2.x (bottom_right n) - Vec2.x (top_left n)) ÷ 2) in *.
  set (hm := Vec2.y (top_left n)
             + (Vec2.y (bottom_right n) - Vec2.y (top_left n)) ÷ 2) in *.
  clearbody vm hm.
  assert (Hpick : forall c tlc brc,
             top_left (node c) = tlc -> bottom_right (node c) = brc ->
             (Vec2.x tlc <= Vec2.x (getPosition (mem o))
                            + Vec2.x (getSize (mem o))
              /\ Vec2.x (getPosition (mem o)) <= Vec2.x brc
              /\ Vec2.y tlc <= Vec2.y (getPosition (mem o))
                               + Vec2.y (getSize (mem o))
              /\ Vec2.y (getPosition (mem o)) <= Vec2.y brc)
             /\ (Vec2.x tlc <= Vec2.x (getPosition (mem q))
                               + Vec2.x (getSize (mem q))
                 /\ Vec2.x (getPosition (mem q)) <= Vec2.x brc
                 /\ Vec2.y tlc <= Vec2.y (getPosition (mem q))
                                  + Vec2.y (getSize (mem q))
                 /\ Vec2.y (getPosition (mem q)) <= Vec2.y brc) ->
             is_inside mem c o = true /\ is_inside mem c q = true).
  { intros c tlc brc <- <- [A B]. split; now apply is_inside_true_iff. }
  destruct (Z_le_gt_dec (Vec2.x (getPosition (mem o))) vm) as [Xo | Xo],
    (Z_le_gt_dec (Vec2.x (getPosition (mem q))) vm) as [Xq | Xq],
    (Z_le_gt_dec (Vec2.y (getPosition (mem o))) hm) as [Yo | Yo],
    (Z_le_gt_dec (Vec2.y (getPosition (mem q))) hm) as [Yq | Yq];
    first
      [ exists c0; split; [simpl; tauto |];
        apply (Hpick c0 _ _ T0 B0); cbn [Vec2.x Vec2.y]; lia
      | exists c1; split; [simpl; tauto |];
        apply (Hpick c1 _ _ T1 B1); cbn [Vec2.x Vec2.y]; lia
      | exists c2; split; [simpl; tauto |];
        apply (Hpick c2 _ _ T2 B2); cbn [Vec2.x Vec2.y]; lia
      | exists c3; split; [simpl; tauto |];
        apply (Hpick c3 _ _ T3 B3); cbn [Vec2.x Vec2.y]; lia ].
Qed.

Lemma common_leaf (t : QuadTree) (o q : ptr) :
  split_shaped t -> ordered (node t) ->
  well_sized mem o -> well_sized mem q -> overlaps mem o q = true ->
  is_inside mem t o = true -> is_inside mem t q = true ->
  exists l, In l (leaves t)
            /\ is_inside mem l o = true /\ is_inside mem l q = true.
Proof.
  induction t as [n | n c0 IH0 c1 IH1 c2 IH2 c3 IH3];
    intros Hs Ho Wo Wq Hov Hio Hiq.
  - exists (Leaf n). split; [now left | now split].
  - pose proof Hs as (_ & _ & Hframes & _).
    destruct (common_child n c0 c1 c2 c3 o q Hframes Wo Wq Hov Hio Hiq)
      as (c & Hc & Hco & Hcq).
    destruct (shaped_children_ordered _ _ _ _ _ c Hs Ho Hc) as [Hsc Hoc].
    cbn [leaves].
    destruct Hc as [<- | [<- | [<- | [<- | []]]]].
    + destruct (IH0 Hsc Hoc Wo Wq Hov Hco Hcq) as (l & Hl & ?).
      exists l. rewrite !in_app_iff. tauto.
    + destruct (IH1 Hsc Hoc Wo Wq Hov Hco Hcq) as (l & Hl & ?).
      exists l. rewrite !in_app_iff. tauto.
    + destruct (IH2 Hsc Hoc Wo Wq Hov Hco Hcq) as (l & Hl & ?).
      exists l. rewrite !in_app_iff. tauto.
    + destruct (IH3 Hsc Hoc Wo Wq Hov Hco Hcq) as (l & Hl & ?).
      exists l. rewrite !in_app_iff. tauto.
Qed.

End Completeness.

Section Kept.

Context {T : Type} {shape : Shape T}.
Variable mem : ptr -> T.

Lemma ordered_insert (t : QuadTree) (o : ptr) :
  ordered (node t) -> ordered (node (insert mem t o)).
Proof.
  intros H. pose proof (frame_insert mem t o) as Hf.
  apply frame_fields in Hf. destruct Hf as (Htl & Hbr & _).
  unfold ordered. now rewrite Htl, Hbr.
Qed.

(** After its insertion an object is held by every leaf that overlaps it. *)
Lemma kept_insert_self (t : QuadTree) (o : ptr) :
  split_shaped t -> ordered (node t) ->
  forall l, In l (leaves (insert mem t o)) ->
    is_inside mem l o = true -> In o (node_objects (node l)).
Proof.
  induction t as [n | n c0 IH0 c1 IH1 c2 IH2 c3 IH3]; intros Hs Ho l Hl Hin.
  - destruct (should_split (with_objects n (node_objects n ++ [o]))) eqn:E.
    + rewrite (leaves_insert_overflow mem n o E) in Hl.
      apply in_map_iff in Hl. destruct Hl as (c & <- & _).
      cbn [node with_objects node_objects]. apply filter_In. split.
      * apply in_rev. rewrite rev_involutive, in_app_iff. right. now left.
      * exact Hin.
    + rewrite (insert_leaf_fits mem n o E) in Hl. destruct Hl as [<- | []].
      cbn [node with_objects node_objects]. rewrite in_app_iff.
      right. now left.
  - assert (Hstep : forall c,
               In c [c0; c1; c2; c3] ->
               (split_shaped c -> ordered (node c) ->
                forall l, In l (leaves (insert mem c o)) ->
                  is_inside mem l o = true -> In o (node_objects (node l))) ->
               In l (leaves (if is_inside mem c o then insert mem c o
                             else c)) ->
               In o (node_objects (node l))).
    { intros c Hc IH Hlc.
      destruct (shaped_children_ordered _ _ _ _ _ c Hs Ho Hc) as [Hsc Hoc].
      destruct (is_inside mem c o) eqn:E.
      - now apply IH.
      - rewrite (leaf_inside_root mem c l o Hsc Hoc Hlc Hin) in E.
        discriminate. }
    cbn [insert leaves] in Hl. rewrite !in_app_iff in Hl.
    destruct Hl as [Hl | [Hl | [Hl | Hl]]].
    + apply (Hstep c0); [simpl; tauto | exact IH0 | exact Hl].
    + apply (Hstep c1); [simpl; tauto | exact IH1 | exact Hl].
    + apply (Hstep c2); [simpl; tauto | exact IH2 | exact Hl].
    + apply (Hstep c3); [simpl; tauto | exact IH3 | exact Hl].
Qed.

(** Inserting another object takes no object away from a leaf that overlaps
    it, also when leaves split. *)
Lemma kept_insert_other (t : QuadTree) (o o' : ptr) :
  split_shaped t -> ordered (node t) ->
  (forall l, In l (leaves t) ->
     is_inside mem l o = true -> In o (node_objects (node l))) ->
  forall l, In l (leaves (insert mem t o')) ->
    is_inside mem l o = true -> In o (node_objects (node l)).
Proof.
  induction t as [n | n c0 IH0 c1 IH1 c2 IH2 c3 IH3];
    intros Hs Ho H l Hl Hin.
  - specialize (H (Leaf n) ltac:(simpl; tauto)). cbn [node] in H.
    destruct (should_split (with_objects n (node_objects n ++ [o']))) eqn:E.
    + rewrite (leaves_insert_overflow mem n o' E) in Hl.
      apply in_map_iff in Hl. destruct Hl as (c & <- & Hc).
      cbn [node with_objects node_objects]. apply filter_In.
      split; [| exact Hin].
      apply in_rev. rewrite rev_involutive, in_app_iff. left. apply H.
      apply (inside_quadrant_inside mem (Leaf n) c c o Ho Hc eq_refl).
      exact Hin.
    + rewrite (insert_leaf_fits mem n o' E) in Hl. destruct Hl as [<- | []].
      cbn [node with_objects node_objects]. rewrite in_app_iff. left.
      apply H. exact Hin.
  - assert (Hstep : forall c,
               In c [c0; c1; c2; c3] ->
               (split_shaped c -> ordered (node c) ->
                (forall l, In l (leaves c) ->
                   is_inside mem l o = true -> In o (node_objects (node l))) ->
                forall l, In l (leaves (insert mem c o')) ->
                  is_inside mem l o = true -> In o (node_objects (node l))) ->
               In l (leaves (if is_inside mem c o' then insert mem c o'
                             else c)) ->
               In o (node_objects (node l))).
    { intros c Hc IH Hlc.
      destruct (shaped_children_ordered _ _ _ _ _ c Hs Ho Hc) as [Hsc Hoc].
      assert (Hsub : forall l', In l' (leaves c) ->
                     is_inside mem l' o = true ->
                     In o (node_objects (node l'))).
      { intros l' Hl'. apply H. cbn [leaves]. rewrite !in_app_iff.
        destruct Hc as [<- | [<- | [<- | [<- | []]]]]; tauto. }
      destruct (is_inside mem c o').
      - now apply IH.
      - now apply Hsub. }
    cbn [insert leaves] in Hl. rewrite !in_app_iff in Hl.
    destruct Hl as [Hl | [Hl | [Hl | Hl]]].
    + apply (Hstep c0); [simpl; tauto | exact IH0 | exact Hl].
    + apply (Hstep c1); [simpl; tauto | exact IH1 | exact Hl].
    + apply (Hstep c2); [simpl; tauto | exact IH2 | exact Hl].
    + apply (Hstep c3); [simpl; tauto | exact IH3 | exact Hl].
Qed.

Lemma kept_insert_all (more : list ptr) (t : QuadTree) (o : ptr) :
  split_shaped t -> ordered (node t) ->
  (forall l, In l (leaves t) ->
     is_inside mem l o = true -> In o (node_objects (node l))) ->
  split_shaped (insert_all mem t more)
  /\ frame (node (insert_all mem t more)) = frame (node t)
  /\ forall l, In l (leaves (insert_all mem t more)) ->
       is_inside mem l o = true -> In o (node_objects (node l)).
Proof.
  unfold insert_all. revert t.
  induction more as [|o' more IH]; intros t Hs Ho H.
  - now repeat split.
  - cbn [fold_left].
    destruct (IH (insert mem t o') (split_shaped_insert mem t o' Hs)
                (ordered_insert t o' Ho)
                (kept_insert_other t o o' Hs Ho H)) as (A & B & C).
    split; [exact A | split; [| exact C]].
    now rewrite B, frame_insert.
Qed.

End Kept.

(** X10.  The candidates are complete.  In a tree built from a root whose bounds
    are a rectangle, let an object of non-negative size that overlaps these
    bounds be inserted, and any objects after it.  Then every query of
    non-negative size that overlaps the bounds and overlaps the object gets
    the object from [retrieve]: no collision inside the region is missed,
    however the leaves have split in between. *)
Theorem retrieval_completeness {T : Type} {shape : Shape T}
    (mem : ptr -> T) (pLevel : N) (tl br : Bound) (max_objs max_lvl : N)
    (ops : list Op) (more : list ptr) (o q : ptr) (acc : list ptr) :
  Vec2.x tl <= Vec2.x br -> Vec2.y tl <= Vec2.y br ->
  let t0 := run mem (QuadTree_new pLevel tl br max_objs max_lvl) ops in
  let t := insert_all mem (insert mem t0 o) more in
  well_sized mem o -> well_sized mem q ->
  is_inside mem t0 o = true -> is_inside mem t0 q = true ->
  overlaps mem o q = true ->
  In o (retrieve mem t acc q).
Proof.
  intros Hx Hy t0 t Wo Wq Hio Hiq Hov.
  destruct (run_invariants mem pLevel tl br max_objs max_lvl ops)
    as (Hs0 & Htl & Hbr & _). fold t0 in Hs0, Htl, Hbr.
  assert (Ho0 : ordered (node t0))
    by (unfold ordered; rewrite Htl, Hbr; now split).
  destruct (kept_insert_all mem more (insert mem t0 o) o
              (split_shaped_insert mem t0 o Hs0) (ordered_insert mem t0 o Ho0)
              (kept_insert_self mem t0 o Hs0 Ho0)) as (Hs & Hf & Hkept).
  fold t in Hs, Hf, Hkept.
  rewrite frame_insert in Hf.
  assert (Ho : ordered (node t)).
  { apply frame_fields in Hf. destruct Hf as (A & B & _).
    unfold ordered. now rewrite A, B. }
  rewrite <- (is_inside_frame mem t t0 o Hf) in Hio.
  rewrite <- (is_inside_frame mem t t0 q Hf) in Hiq.
  destruct (common_leaf mem t o q Hs Ho Wo Wq Hov Hio Hiq)
    as (l & Hl & Hlo & Hlq).
  pose proof (Hkept l Hl Hlo) as Hstored.
  apply occurrences_In.
  pose proof (retrieve_lower_bound mem t o q acc Hs Ho) as Hlow.
  pose proof (stored_in_reach_leaf mem o q t l Hl Hlq) as Hleaf.
  apply occurrences_In in Hstored. lia.
Qed.

(** In the scenario: B, inserted after A, is returned to the query that
    spans the region. *)
Lemma retrieval_completeness_witness :
  In obj_B
    (retrieve demo_mem
       (insert_all demo_mem
          (insert demo_mem (run demo_mem demo_tree [OpInsert obj_A]) obj_B)
          [obj_A]) [] query_all).
Proof.
  apply (retrieval_completeness demo_mem 0 (Vec2.mk 0 0) (Vec2.mk 100 100)
           1 4 [OpInsert obj_A] [obj_A] obj_B query_all []).
  - vm_compute. discriminate.
  - vm_compute. discriminate.
  - split; vm_compute; discriminate.
  - split; vm_compute; discriminate.
  - reflexivity.
  - reflexivity.
  - reflexivity.
Defined.

(** Why the sizes are taken non-negative: an object of negative width can
    overlap the bounds of a node, by the test of [is_inside], and overlap
    none of its quarters; it is lost when the node splits. *)
Example negative_width_is_lost :
  let mem := storage [rect 10 10 5 5; rect 60 10 (-20) 5] in
  is_inside mem demo_tree 1%N = true
  /\ map (fun l => node_objects (node l))
       (leaves (insert_all mem demo_tree [0; 1]%N))
     = [[]; [0%N]; []; []].
Proof. cbv zeta. repeat split; vm_compute; reflexivity. Qed.

(** ** Strictly classified objects are not duplicated *)

Lemma getIndex_outside_quadrant {T : Type} {shape : Shape T}
    (mem : ptr -> T) (t : QuadTree) (object : ptr) (j : nat) (qj : QuadTree) :
  getIndex mem t object <> -1 ->
  nth_error (quadrants (node t)) j = Some qj ->
  Z.of_nat j <> getIndex mem t object ->
  is_inside mem qj object = false.
Proof.
  intros Hne Hq Hj.
  pose proof (getIndex_cases mem t object) as Hc. cbv zeta in Hc.
  apply is_inside_false_iff.
  pose proof (quadrants_bounds (node t) j qj Hq) as Hb. cbv zeta in Hb.
  destruct Hb as [(-> & -> & ->) | [(-> & -> & ->) | [(-> & -> & ->)
                 | (-> & -> & ->)]]];
    cbn [Vec2.x Vec2.y]; cbn in Hj; lia.
Qed.

(** X11.  At every node with children of a tree built by the operations, [insert]
    leaves alone each child other than the one [getIndex] names for the
    object: an object that [getIndex] classifies at a node is handed to one
    child of that node at most. *)
Theorem insert_of_classified_object {T : Type} {shape : Shape T}
    (mem : ptr -> T) (pLevel : N) (tl br : Bound) (max_objs max_lvl : N)
    (ops : list Op) (s : QuadTree) (object : ptr) (j : nat) (cj : QuadTree) :
  In s (subtrees (run mem (QuadTree_new pLevel tl br max_objs max_lvl) ops)) ->
  getIndex mem s object <> -1 ->
  nth_error (children_nodes s) j = Some cj ->
  Z.of_nat j <> getIndex mem s object ->
  is_inside mem cj object = false
  /\ nth_error (children_nodes (insert mem s object)) j = Some cj.
Proof.
  intros Hin Hne Hj Hij.
  destruct (run_invariants mem pLevel tl br max_objs max_lvl ops)
    as (Hs & _).
  pose proof (split_shaped_subtree _ s Hs Hin) as Hss.
  destruct s as [n | n c0 c1 c2 c3]; [destruct j; discriminate |].
  destruct Hss as (_ & _ & Hframes & _).
  assert (Hq : nth_error (quadrants n) j = Some (Leaf (frame (node cj)))).
  { unfold quadrants. rewrite <- Hframes.
    cbn [children_nodes] in Hj.
    destruct j as [|[|[|[|j]]]]; cbn [nth_error] in *;
      try (destruct j; discriminate); now injection Hj as ->. }
  assert (Hout : is_inside mem cj object = false)
    by exact (getIndex_outside_quadrant mem (Internal n c0 c1 c2 c3) object
                j _ Hne Hq Hij).
  split; [exact Hout |].
  change (children_nodes (insert mem (Internal n c0 c1 c2 c3) object))
    with (map (fun c => if is_inside mem c object then insert mem c object
                        else c) (children_nodes (Internal n c0 c1 c2 c3))).
  rewrite nth_error_map, Hj. cbn [option_map]. now rewrite Hout.
Qed.

(** In the split tree of the scenario A is in quarter 1: inserting it again
    leaves the bottom-right child, which holds B, as it is. *)
Lemma insert_of_classified_object_witness :
  nth_error
    (children_nodes
       (insert demo_mem
          (run demo_mem demo_tree [OpInsert obj_A; OpInsert obj_B]) obj_A)) 3
  = Some (Leaf (mkNode [obj_B] (Vec2.mk 50 50) (Vec2.mk 100 100) 1 1 4)).
Proof.
  apply (insert_of_classified_object demo_mem 0 (Vec2.mk 0 0)
           (Vec2.mk 100 100) 1 4 [OpInsert obj_A; OpInsert obj_B]
           (run demo_mem demo_tree [OpInsert obj_A; OpInsert obj_B])
           obj_A 3
           (Leaf (mkNode [obj_B] (Vec2.mk 50 50) (Vec2.mk 100 100) 1 1 4))).
  - left. reflexivity.
  - vm_compute. discriminate.
  - reflexivity.
  - vm_compute. discriminate.
Defined.
